(** * Sopel dice plugin with weekly high scores: embedding and properties

    A shallow embedding of [sopel/builtins/dice.score.py]: the dice pouch
    ([DicePouch], [_roll_dice]), the front half of the [roll] command (comment
    stripping, dice-token matching, template building and substitution) and the
    weekly high score helpers over the [dice_highscores] table.

    Python integers are unbounded and are modelled by [Z]; [str] values are
    modelled by [string] (byte strings, so only ASCII text is covered).
    Exceptions are values of [exn] carried by the [res] monad. *)

From Stdlib Require Import ZArith Lia Ascii String List Permutation Sorted.
From stdpp Require Import base option list gmap strings pretty.

Local Open Scope Z_scope.

(** ** Exceptions *)

(** The [DiceError] hierarchy, one constructor per subclass, with the
    arguments each subclass stores in [args]. *)
Inductive DiceError : Type :=
| InvalidDiceFacesError (faces : Z)
| NegativeDiceCountError (count : Z)
| TooManyDiceError (requested available : Z)
| UnableToDropDiceError (dropped total : Z).

(** The exceptions that the modelled code can raise: the plugin's own
    [DiceError]s and the built-in ones. *)
Inductive exn : Type :=
| Dice (e : DiceError)
| KeyError (key : Z)
| ValueError
| TypeError.

Inductive res (A : Type) : Type :=
| Ok (a : A)
| Raise (e : exn).
Arguments Ok {A} a.
Arguments Raise {A} e.

(** Sequencing: an exception raised by the first statement propagates. *)
#[global] Instance res_ret : MRet res := fun A a => Ok a.
#[global] Instance res_bind : MBind res := fun A B k m =>
  match m with
  | Ok a => k a
  | Raise e => Raise e
  end.
#[global] Instance res_fmap : FMap res := fun A B f m =>
  match m with
  | Ok a => Ok (f a)
  | Raise e => Raise e
  end.

(** ** Python dictionaries keyed and valued by integers

    A [dict] keeps its items in insertion order, which is the order the
    renderings iterate in; it is an association list whose keys are pairwise
    distinct ([dict_wf]). *)
Definition dict : Type := list (Z * Z).

Definition keys (d : dict) : list Z := d.*1.
Definition values (d : dict) : list Z := d.*2.

Definition dict_wf (d : dict) : Prop := NoDup (keys d).

(** [d.get(k)] *)
Fixpoint dict_get (d : dict) (k : Z) : option Z :=
  match d with
  | [] => None
  | (k', v) :: d' => if k' =? k then Some v else dict_get d' k
  end.

(** [d.get(k, dflt)] *)
Definition dict_get_default (d : dict) (k dflt : Z) : Z :=
  match dict_get d k with
  | Some v => v
  | None => dflt
  end.

(** [k in d] *)
Definition dict_mem (d : dict) (k : Z) : bool :=
  match dict_get d k with
  | Some _ => true
  | None => false
  end.

(** [d[k]], raising [KeyError] for a missing key *)
Definition dict_getitem (d : dict) (k : Z) : res Z :=
  match dict_get d k with
  | Some v => Ok v
  | None => Raise (KeyError k)
  end.

(** [d[k] = v]: an existing key keeps its position, a new key goes last. *)
Fixpoint dict_set (d : dict) (k v : Z) : dict :=
  match d with
  | [] => [(k, v)]
  | (k', v') :: d' =>
      if k' =? k then (k', v) :: d' else (k', v') :: dict_set d' k v
  end.

(** [del d[k]] for a key that is present (the only use in the source is
    guarded by [k in d]). *)
Fixpoint dict_del (d : dict) (k : Z) : dict :=
  match d with
  | [] => []
  | (k', v') :: d' => if k' =? k then d' else (k', v') :: dict_del d' k
  end.

(** [d.setdefault(k, dflt)]: the dictionary afterwards and the value returned. *)
Definition setdefault (d : dict) (k dflt : Z) : dict * Z :=
  match dict_get d k with
  | Some v => (d, v)
  | None => (dict_set d k dflt, dflt)
  end.

(** The number of dice a dictionary of per-face counts holds. *)
Definition total (d : dict) : Z := fold_right Z.add 0 (values d).

(** A stable sort, by insertion; [le x y] tells that [x] may stand before [y]. *)
Fixpoint insert_sorted {A : Type} (le : A -> A -> bool) (x : A) (l : list A) : list A :=
  match l with
  | [] => [x]
  | y :: l' => if le x y then x :: y :: l' else y :: insert_sorted le x l'
  end.

Definition sort_by {A : Type} (le : A -> A -> bool) (l : list A) : list A :=
  fold_right (insert_sorted le) [] l.

(** [sorted(d.items(), key=operator.itemgetter(0))] *)
Definition sorted_items (d : dict) : list (Z * Z) :=
  sort_by (fun x y => fst x <=? fst y) d.

(** ** The random source

    [random.randint] draws from the process-wide generator. The generator is
    threaded explicitly as an endless supply of raw integers; a draw reduces
    the next raw integer into the closed range [[a, b]], so every outcome in
    the range is produced by some supply. An empty range raises [ValueError]. *)
Definition RNG : Type := nat -> Z.

Definition randint (a b : Z) (g : RNG) : res (Z * RNG) :=
  if b <? a then Raise ValueError
  else Ok (a + g 0%nat mod (b - a + 1), fun k => g (S k)).

(** A supply whose raw integers are 3, 10, 17, ..., for examples. *)
Definition sample_supply : RNG := fun k => Z.of_nat k * 7 + 3.

(** ** DicePouch *)

Record DicePouch : Type := mkDicePouch {
  num : Z;          (* self.num *)
  type : Z;         (* self.type *)
  dice : dict;      (* self.dice: face value -> number of kept dice *)
  dropped : dict    (* self.dropped: face value -> number of dropped dice *)
}.

(** The loop of [roll_dice]: [k] iterations remain. *)
Fixpoint roll_loop (k : nat) (ty : Z) (d : dict) (g : RNG) : res (dict * RNG) :=
  match k with
  | O => Ok (d, g)
  | S k' =>
      '(number, g1) ← randint 1 ty g;
      let '(d1, count) := setdefault d number 0 in
      roll_loop k' ty (dict_set d1 number (count + 1)) g1
  end.

(** [DicePouch.roll_dice]; [range(self.num)] is empty for a negative [num]. *)
Definition roll_dice (self : DicePouch) (g : RNG) : res (DicePouch * RNG) :=
  '(d, g') ← roll_loop (Z.to_nat (num self)) (type self) [] g;
  Ok (mkDicePouch (num self) (type self) d [], g').

(** [DicePouch.__init__] *)
Definition DicePouch_init (dice_count dice_type : Z) (g : RNG)
  : res (DicePouch * RNG) :=
  roll_dice (mkDicePouch dice_count dice_type [] []) g.

(** The first loop of [drop_lowest], over the sorted snapshot [sorted_x];
    the state is [n], [self.dice] and [self.dropped]. *)
Fixpoint drop_loop (sorted_x : list (Z * Z)) (n : Z) (kept drp : dict)
  : res (dict * dict) :=
  match sorted_x with
  | [] => Ok (kept, drp)
  | (i, _) :: rest =>
      count ← dict_getitem kept i;
      if n =? 0 then Ok (kept, drp)
      else if n <? count then
        Ok (dict_set kept i (count - n), dict_set drp i n)
      else
        drop_loop rest (n - count) (dict_set kept i 0) (dict_set drp i count)
  end.

(** The second loop of [drop_lowest], over [list(self.dropped.items())]:
    faces whose kept count fell to zero are deleted from [self.dice]. *)
Fixpoint drop_cleanup (items : list (Z * Z)) (kept : dict) : dict :=
  match items with
  | [] => kept
  | (i, _) :: rest =>
      drop_cleanup rest
        (if (dict_get_default kept i 0 =? 0) && dict_mem kept i
         then dict_del kept i else kept)
  end.

(** [DicePouch.drop_lowest] *)
Definition drop_lowest (self : DicePouch) (n : Z) : res DicePouch :=
  '(kept, drp) ← drop_loop (sorted_items (dice self)) n (dice self) (dropped self);
  Ok (mkDicePouch (num self) (type self) (drop_cleanup drp kept) drp).

(** [DicePouch.get_sum] *)
Definition get_sum (self : DicePouch) : Z :=
  fold_left (fun result '(face, times) => result + face * times) (dice self) 0.

(** [DicePouch.get_number_of_faces] *)
Definition get_number_of_faces (self : DicePouch) : Z :=
  Z.of_nat (length (dice self)) + Z.of_nat (length (dropped self)).

(** [DicePouch.get_simple_string]: the generator [faces], one string per
    face group, then the whole rendering. [str(face)] is [pretty face]. *)
Definition simple_groups (d : dict) : list string :=
  map (fun '(face, times) =>
         String.concat "+" (repeat (pretty face) (Z.to_nat times))) d.

Definition get_simple_string (self : DicePouch) : string :=
  let dice_str := String.concat "+" (simple_groups (dice self)) in
  let dropped_str :=
    match dropped self with
    | [] => EmptyString
    | _ => "[+" +:+ String.concat "+" (simple_groups (dropped self)) +:+ "]"
    end in
  "(" +:+ dice_str +:+ dropped_str +:+ ")".

(** [DicePouch.get_compressed_string], with its generator of
    ["%dx%d" % (times, face)] groups. *)
Definition compressed_groups (d : dict) : list string :=
  map (fun '(face, times) => pretty times +:+ "x" +:+ pretty face) d.

Definition get_compressed_string (self : DicePouch) : string :=
  let dice_str := String.concat "+" (compressed_groups (dice self)) in
  let dropped_str :=
    match dropped self with
    | [] => EmptyString
    | _ => "[+" +:+ String.concat "+" (compressed_groups (dropped self)) +:+ "]"
    end in
  "(" +:+ dice_str +:+ dropped_str +:+ ")".

(** [_get_error_message] *)
Definition _get_error_message (exc : DiceError) : string :=
  match exc with
  | InvalidDiceFacesError faces =>
      "I don't have any dice with " +:+ pretty faces +:+ " sides."
  | NegativeDiceCountError count =>
      "I can't roll " +:+ pretty count +:+ " dice."
  | TooManyDiceError requested available =>
      "I only have " +:+ pretty available +:+ "/" +:+ pretty requested +:+ " dice."
  | UnableToDropDiceError drp total =>
      "I can't drop the lowest " +:+ pretty drp +:+ " of " +:+ pretty total +:+ " dice."
  end.

(** ** Text helpers: the string methods and built-ins the command uses *)

Definition is_digit (c : ascii) : bool :=
  let n := nat_of_ascii c in (48 <=? n)%nat && (n <=? 57)%nat.

Definition digit_value (c : ascii) : Z := Z.of_nat (nat_of_ascii c) - 48.

Fixpoint digits_value (s : string) (acc : Z) : option Z :=
  match s with
  | EmptyString => Some acc
  | String c s' =>
      if is_digit c then digits_value s' (10 * acc + digit_value c) else None
  end.

(** [int(s)] for a string: an optional sign and one or more decimal digits;
    anything else raises [ValueError]. (Surrounding blanks and underscores,
    which [int] also accepts, cannot occur in the texts converted here.) *)
Definition int_unsigned (t : string) : res Z :=
  match t with
  | EmptyString => Raise ValueError
  | _ => match digits_value t 0 with
         | Some v => Ok v
         | None => Raise ValueError
         end
  end.

Definition py_int (s : string) : res Z :=
  match s with
  | String "-" t => v ← int_unsigned t; Ok (- v)
  | String "+" t => int_unsigned t
  | _ => int_unsigned s
  end.

(** [s.split(sep, 1)[0]] for a one-character separator: the text before the
    first occurrence of [sep], or all of [s] when there is none. *)
Fixpoint split_first (sep : ascii) (s : string) : string :=
  match s with
  | EmptyString => EmptyString
  | String c s' => if Ascii.eqb c sep then EmptyString else String c (split_first sep s')
  end.

(** The characters [str.strip()] removes from ASCII text. *)
Definition is_space (c : ascii) : bool :=
  let n := nat_of_ascii c in
  ((9 <=? n)%nat && (n <=? 13)%nat) || ((28 <=? n)%nat && (n <=? 32)%nat).

Fixpoint lstrip (s : string) : string :=
  match s with
  | String c s' => if is_space c then lstrip s' else s
  | EmptyString => EmptyString
  end.

Fixpoint rstrip (s : string) : string :=
  match s with
  | EmptyString => EmptyString
  | String c s' =>
      match rstrip s' with
      | EmptyString => if is_space c then EmptyString else String c EmptyString
      | t => String c t
      end
  end.

(** [s.strip()] *)
Definition strip (s : string) : string := rstrip (lstrip s).

(** [s.replace("%", "%%")] *)
Fixpoint escape_percent (s : string) : string :=
  match s with
  | EmptyString => EmptyString
  | String c s' =>
      if Ascii.eqb c "%" then String "%" (String "%" (escape_percent s'))
      else String c (escape_percent s')
  end.

(** [template % args] for the conversions a template built by [roll] can
    hold: ["%%"] and ["%s"]. Too few or too many arguments raise [TypeError];
    any other conversion is taken as unsupported ([ValueError]). *)
Fixpoint py_format (template : string) (args : list string) : res string :=
  match template with
  | EmptyString =>
      match args with
      | [] => Ok EmptyString
      | _ => Raise TypeError
      end
  | String "%" (String "%" t) => r ← py_format t args; Ok (String "%" r)
  | String "%" (String "s" t) =>
      match args with
      | a :: args' => r ← py_format t args'; Ok (a +:+ r)
      | [] => Raise TypeError
      end
  | String "%" _ => Raise ValueError
  | String c t => r ← py_format t args; Ok (String c r)
  end.

(** [s.lower()] and [s.startswith(c)] on ASCII text *)
Definition lower_ascii (c : ascii) : ascii :=
  let n := nat_of_ascii c in
  if (65 <=? n)%nat && (n <=? 90)%nat then ascii_of_nat (n + 32) else c.

Fixpoint lower (s : string) : string :=
  match s with
  | EmptyString => EmptyString
  | String c s' => String (lower_ascii c) (lower s')
  end.

Definition startswith (s : string) (c : ascii) : bool :=
  match s with
  | String c' _ => Ascii.eqb c' c
  | EmptyString => false
  end.

(** ** Regular expressions: a backtracking matcher with named groups *)

Inductive regex : Type :=
| Chr (c : ascii)                          (* a literal character *)
| Digit                                    (* \d *)
| Cat (r1 r2 : regex)                      (* r1 r2 *)
| Opt (r : regex)                          (* r?, greedy *)
| Star (r : regex)                         (* r*, greedy *)
| Plus (r : regex)                         (* r+, greedy *)
| Group (name : option string) (r : regex). (* (?P<name>r), or (r) without a name *)

(** The text of each named group that took part in the match. *)
Definition captures : Type := list (string * string).

(** The part of [s] consumed when [rest] is what remains of it. *)
Definition consumed (s rest : string) : string :=
  substring 0 (String.length s - String.length rest) s.

Definition bind_group (name : option string) (text : string) (caps : captures)
  : captures :=
  match name with
  | Some n => (n, text) :: caps
  | None => caps
  end.

(** A literal matches itself, and with [re.IGNORECASE] also its other case. *)
Definition chr_matches (ignorecase : bool) (c c' : ascii) : bool :=
  if ignorecase then Ascii.eqb (lower_ascii c) (lower_ascii c') else Ascii.eqb c c'.

Section matcher.
Context {R : Type}.

(** What to do with the rest of the input once a piece has matched;
    [None] makes the matcher backtrack. *)
Definition cont : Type := string -> captures -> option R.

(** Greedy repetition of [step]: one more round first, and only if that
    leads nowhere, stop here. A round must consume input; [fuel] bounds the
    number of rounds by the length of the input. *)
Fixpoint star_loop (fuel : nat) (step : string -> captures -> cont -> option R)
    (s : string) (caps : captures) (k : cont) : option R :=
  match fuel with
  | O => k s caps
  | S fuel' =>
      match step s caps (fun s' caps' =>
              if (String.length s' <? String.length s)%nat
              then star_loop fuel' step s' caps' k else None) with
      | Some r => Some r
      | None => k s caps
      end
  end.

Fixpoint rmatch (ignorecase : bool) (r : regex) (s : string) (caps : captures)
    (k : cont) {struct r} : option R :=
  match r with
  | Chr c =>
      match s with
      | String c' s' => if chr_matches ignorecase c c' then k s' caps else None
      | EmptyString => None
      end
  | Digit =>
      match s with
      | String c' s' => if is_digit c' then k s' caps else None
      | EmptyString => None
      end
  | Cat r1 r2 =>
      rmatch ignorecase r1 s caps (fun s' caps' => rmatch ignorecase r2 s' caps' k)
  | Opt r1 =>
      match rmatch ignorecase r1 s caps k with
      | Some x => Some x
      | None => k s caps
      end
  | Star r1 => star_loop (String.length s) (rmatch ignorecase r1) s caps k
  | Plus r1 =>
      rmatch ignorecase r1 s caps (fun s' caps' =>
        star_loop (String.length s') (rmatch ignorecase r1) s' caps' k)
  | Group name r1 =>
      rmatch ignorecase r1 s caps (fun s' caps' =>
        k s' (bind_group name (consumed s s') caps'))
  end.
End matcher.

(** A match object: the matched text and the named groups. *)
Record Match : Type := mkMatch {
  group0 : string;
  groupdict : captures
}.

(** [m.group(name)]: [None] for a group that took no part in the match. *)
Fixpoint lookup_group (caps : captures) (name : string) : option string :=
  match caps with
  | [] => None
  | (n, text) :: caps' => if String.eqb n name then Some text else lookup_group caps' name
  end.

Definition group (m : Match) (name : string) : option string :=
  lookup_group (groupdict m) name.

(** A match starting at the first character of [s], with what follows it. *)
Definition match_here (ignorecase : bool) (r : regex) (s : string)
  : option (Match * string) :=
  rmatch ignorecase r s [] (fun rest caps => Some (mkMatch (consumed s rest) caps, rest)).

(** [re.finditer(r, s)]: the non-overlapping matches from left to right. The
    scan resumes where a match ended, or one character on when nothing (or an
    empty text) matched; [fuel] bounds the scan by the length of [s]. *)
Fixpoint finditer_from (fuel : nat) (ignorecase : bool) (r : regex) (s : string)
  : list Match :=
  match fuel with
  | O => []
  | S fuel' =>
      let skip := match s with
                  | String _ s' => finditer_from fuel' ignorecase r s'
                  | EmptyString => []
                  end in
      match match_here ignorecase r s with
      | Some (m, rest) =>
          if (String.length rest <? String.length s)%nat
          then m :: finditer_from fuel' ignorecase r rest
          else m :: skip
      | None => skip
      end
  end.

Definition re_finditer (ignorecase : bool) (r : regex) (s : string) : list Match :=
  finditer_from (S (String.length s)) ignorecase r s.

(** [re.sub(r, repl, s)] for a replacement text without group references. *)
Fixpoint sub_from (fuel : nat) (ignorecase : bool) (r : regex) (repl s : string)
  : string :=
  match fuel with
  | O => s
  | S fuel' =>
      let skip := match s with
                  | String c s' => String c (sub_from fuel' ignorecase r repl s')
                  | EmptyString => EmptyString
                  end in
      match match_here ignorecase r s with
      | Some (_, rest) =>
          if (String.length rest <? String.length s)%nat
          then repl +:+ sub_from fuel' ignorecase r repl rest
          else repl +:+ skip
      | None => skip
      end
  end.

Definition re_sub (ignorecase : bool) (r : regex) (repl s : string) : string :=
  sub_from (S (String.length s)) ignorecase r repl s.

(** ** The roll command *)

Definition MAX_DICE : Z := 1000.

(** [dice_regexp], a pattern for [re.VERBOSE] (blanks are not part of it):
    (?P<dice_num> -? \d* ) d (?P<dice_type> -? \d+ ) ( v (?P<drop_lowest> -? \d+ ) )? *)
Definition dice_regexp : regex :=
  Cat (Group (Some "dice_num") (Cat (Opt (Chr "-")) (Star Digit)))
 (Cat (Chr "d")
 (Cat (Group (Some "dice_type") (Cat (Opt (Chr "-")) (Plus Digit)))
      (Opt (Group None
             (Cat (Chr "v")
                  (Group (Some "drop_lowest") (Cat (Opt (Chr "-")) (Plus Digit)))))))).

(** [int(x)] for a group: [None] is not a number *)
Definition int_of_group (x : option string) : res Z :=
  match x with
  | Some s => py_int s
  | None => Raise TypeError
  end.

(** The text of a group when it is truthy: [None] and the empty string are not. *)
Definition truthy (x : option string) : option string :=
  match x with
  | Some (String c s) => Some (String c s)
  | _ => None
  end.

(** [int(x or 1)] *)
Definition int_or_1 (x : option string) : res Z :=
  match truthy x with
  | Some s => py_int s
  | None => Ok 1
  end.

(** [_roll_dice] *)
Definition _roll_dice (dice_match : Match) (g : RNG) : res (DicePouch * RNG) :=
  dice_num ← int_or_1 (group dice_match "dice_num");
  dice_type ← int_of_group (group dice_match "dice_type");
  if dice_type <=? 0 then Raise (Dice (InvalidDiceFacesError dice_type))
  else if dice_num <? 0 then Raise (Dice (NegativeDiceCountError dice_num))
  else if MAX_DICE <? dice_num then Raise (Dice (TooManyDiceError dice_num MAX_DICE))
  else
    '(pouch, g') ← DicePouch_init dice_num dice_type g;
    match truthy (group dice_match "drop_lowest") with
    | Some s =>
        drop ← py_int s;
        if 0 <=? drop then
          pouch' ← drop_lowest pouch drop; Ok (pouch', g')
        else Raise (Dice (UnableToDropDiceError drop dice_num))
    | None => Ok (pouch, g')
    end.

(** [[_roll_dice(dice_expr) for dice_expr in dice_expressions]] *)
Fixpoint roll_all (dice_expressions : list Match) (g : RNG)
  : res (list DicePouch * RNG) :=
  match dice_expressions with
  | [] => Ok ([], g)
  | m :: rest =>
      '(dp, g1) ← _roll_dice m g;
      '(dps, g2) ← roll_all rest g1;
      Ok (dp :: dps, g2)
  end.

(** [_get_eval_str] and [_get_pretty_str], local to [roll] *)
Definition _get_eval_str (dp : DicePouch) : string :=
  "(" +:+ pretty (get_sum dp) +:+ ")".

Definition _get_pretty_str (dp : DicePouch) : string :=
  if num dp <=? 10 then get_simple_string dp
  else if get_number_of_faces dp <=? 10 then get_compressed_string dp
  else "(...)".

(** [arg_str_raw]: the argument up to the first ["#"], stripped. *)
Definition arg_str_raw_of (group2 : string) : string :=
  strip (split_first "#" group2).

(** [arg_str]: the template, every dice token replaced by ["%s"]. *)
Definition arg_str_of (arg_str_raw : string) : string :=
  re_sub true dice_regexp "%s" (escape_percent arg_str_raw).

(** [dice_expressions] *)
Definition dice_expressions_of (arg_str_raw : string) : list Match :=
  re_finditer true dice_regexp arg_str_raw.

(** How far [roll] gets before it hands [eval_str] to [eval_equation]. *)
Inductive roll_result : Type :=
| Replied (msg : string)       (* [bot.reply(msg)], then [return] *)
| Uncaught (e : exn)           (* an exception leaves [roll] *)
| Rolled (arg_str_raw arg_str : string) (dice : list DicePouch)
         (eval_str pretty_str : string).

(** [roll], from its first statement to the computation of [eval_str] and
    [pretty_str]; [group2] is [trigger.group(2)]. What follows in the source
    evaluates [eval_str] with [eval_equation] and reports the outcome. *)
Definition roll (group2 : option string) (g : RNG) : roll_result :=
  match group2 with
  | None | Some EmptyString => Replied "No dice to roll."
  | Some text =>
      let arg_str_raw := arg_str_raw_of text in
      let arg_str := arg_str_of arg_str_raw in
      match dice_expressions_of arg_str_raw with
      | [] => Replied "I couldn't find any valid dice expressions."
      | dice_expressions =>
          match roll_all dice_expressions g with
          | Raise (Dice err) => Replied (_get_error_message err)
          | Raise e => Uncaught e
          | Ok (dice, _) =>
              match py_format arg_str (map _get_eval_str dice),
                    py_format arg_str (map _get_pretty_str dice) with
              | Ok eval_str, Ok pretty_str =>
                  Rolled arg_str_raw arg_str dice eval_str pretty_str
              | Raise e, _ | _, Raise e => Uncaught e
              end
          end
      end
  end.

(** ** The weekly high score table *)

(** Number of seconds a high score remains valid (7 days) *)
Definition WEEK_SECONDS : Z := 7 * 24 * 60 * 60.

(** The table [dice_highscores]: [(channel, nick)] is the primary key and
    each row carries [(score, set_at)]. *)
Abbreviation table := (gmap (string * string) (Z * Z)).

(** [now] when the caller gave one, [int(time.time())] otherwise; [clock] is
    what the clock reads. *)
Definition now_or_clock (now : option Z) (clock : Z) : Z :=
  match now with
  | Some t => t
  | None => clock
  end.

(** [_purge_expired]: [DELETE FROM dice_highscores WHERE set_at < threshold] *)
Definition _purge_expired (db : table) (now : option Z) (clock : Z) : table :=
  let now := now_or_clock now clock in
  let threshold := now - WEEK_SECONDS in
  filter (fun row => ~ (snd (snd row) < threshold)) db.

(** An integer that SQLite stores and that a statement takes as an
    argument: 64 bits, signed. A larger one makes [bot.db.execute] raise
    [OverflowError]. *)
Definition sqlite_int (z : Z) : bool := (- 2 ^ 63 <=? z) && (z <? 2 ^ 63).

(** [bot.db.execute] of the [REPLACE INTO dice_highscores ...] of
    [_update_highscore]: the row is written but never committed, and the
    table that later statements read is the table as it was (the [DELETE]
    of [_purge_expired], for its part, is committed). [sopel/db.py], where
    [execute] is defined, is not under src/. *)
Definition execute_replace (db : table) (key : string * string) (row : Z * Z)
  : table := db.

(** [_update_highscore]: the table afterwards and the value returned, for
    arguments that satisfy [sqlite_int]. *)
Definition _update_highscore (db : table) (channel nick : string) (score : Z)
    (now : option Z) (clock : Z) : table * option Z :=
  let now := now_or_clock now clock in
  let db1 := _purge_expired db (Some now) clock in
  let row := db1 !! (channel, nick) in
  let prev_score :=
    match row with
    | Some (prev_score_val, set_at) =>
        if now - WEEK_SECONDS <=? set_at then Some prev_score_val else None
    | None => None
    end in
  match prev_score with
  | None => (execute_replace db1 (channel, nick) (score, now), prev_score)
  | Some p =>
      if p <? score
      then (execute_replace db1 (channel, nick) (score, now), prev_score)
      else (db1, prev_score)
  end.

(** [ORDER BY score DESC, set_at ASC] on rows [(nick, score, set_at)] *)
Definition row_before (r1 r2 : string * Z * Z) : bool :=
  let '(_, score1, set_at1) := r1 in
  let '(_, score2, set_at2) := r2 in
  (score2 <? score1) || ((score1 =? score2) && (set_at1 <=? set_at2)).

(** [LIMIT n]: a negative [n] puts no bound on the number of rows. *)
Definition sql_limit {A : Type} (n : Z) (rows : list A) : list A :=
  if n <? 0 then rows else take (Z.to_nat n) rows.

(** The [SELECT] of [_get_channel_highscores] *)
Definition select_highscores (db : table) (channel : string) (threshold limit : Z)
  : list (string * Z * Z) :=
  let rows :=
    omap (fun '((ch, nick), (score, set_at)) =>
            if String.eqb ch channel && (threshold <=? set_at)
            then Some (nick, score, set_at) else None)
         (map_to_list db) in
  sql_limit limit (sort_by row_before rows).

(** [_get_channel_highscores]: the table afterwards and the rows returned. *)
Definition _get_channel_highscores (db : table) (channel : string) (limit : Z)
    (clock : Z) : table * list (string * Z * Z) :=
  let now := clock in
  let db1 := _purge_expired db (Some now) clock in
  (db1, select_highscores db1 channel (now - WEEK_SECONDS) limit).

(** [_format_age] *)
Definition _format_age (seconds : Z) : string :=
  let days := seconds / 86400 in
  if 0 <? days then pretty days +:+ "d"
  else
    let hours := seconds / 3600 in
    if 0 <? hours then pretty hours +:+ "h"
    else
      let minutes := seconds / 60 in
      if 0 <? minutes then pretty minutes +:+ "m"
      else pretty seconds +:+ "s".

(** The row [my_highscore] goes on to report: the caller's row, unless it
    is missing or [row[1] < now - WEEK_SECONDS]. *)
Definition my_highscore_row (db : table) (channel nick : string) (clock : Z)
  : option (Z * Z) :=
  let now := clock in
  match _purge_expired db (Some now) clock !! (channel, nick) with
  | None => None
  | Some (score, set_at) =>
      if set_at <? now - WEEK_SECONDS then None else Some (score, set_at)
  end.

(** [my_highscore]: the table afterwards and the line sent. *)
Definition my_highscore (db : table) (sender nick : string) (clock : Z)
  : table * string :=
  if negb (startswith sender "#") then
    (db, "High scores are channel-specific; use this in a channel.")
  else
    let channel := lower sender in
    let now := clock in
    let db1 := _purge_expired db (Some now) clock in
    match my_highscore_row db channel nick clock with
    | None => (db1, nick +:+ ": you don't have a weekly high score yet. Roll!")
    | Some (score, set_at) =>
        let age := _format_age (now - set_at) in
        (db1, nick +:+ ": your weekly high is " +:+ pretty score
                   +:+ " (" +:+ age +:+ " ago)")
    end.

(** ** Predicates used to state the properties *)

(** The state of a freshly rolled pouch: every face in [d] lies in
    [[1, ty]] and has a strictly positive count. *)
Definition rolled_wf (ty : Z) (d : dict) : Prop :=
  dict_wf d /\ (forall k v, (k, v) ∈ d -> 1 <= k <= ty /\ 0 < v).

(** The dice of a pouch add up to [count] and no per-face count is negative. *)
Definition counts_add_up (count : Z) (dp : DicePouch) : Prop :=
  total (dice dp) + total (dropped dp) = count
  /\ (forall face times, (face, times) ∈ dice dp -> 0 <= times)
  /\ (forall face times, (face, times) ∈ dropped dp -> 0 <= times).

(** No face group of [d] is empty, in the dictionary and in both renderings. *)
Definition no_empty_group (d : dict) : Prop :=
  (forall face times, (face, times) ∈ d -> 0 < times)
  /\ Forall (fun s => s <> EmptyString) (simple_groups d)
  /\ Forall (fun s => exists face times : Z,
                0 < times /\ s = pretty times +:+ "x" +:+ pretty face)
            (compressed_groups d).

(** [c] occurs in [s]. *)
Fixpoint has_char (c : ascii) (s : string) : bool :=
  match s with
  | EmptyString => false
  | String c' s' => Ascii.eqb c' c || has_char c s'
  end.

(** ** The rest of the plugin: the high score commands *)

(** The sum of the face values of the dice counted in [d]. *)
Definition weighted_total (d : dict) : Z :=
  fold_right (fun '(face, times) acc => face * times + acc) 0 d.

(** The loop of [highscores] over [enumerate(scores, start=1)]: one part
    ["{idx}. {nick} {score} ({age})"] per row, [idx] being the rank. *)
Fixpoint highscore_parts (now idx : Z) (scores : list (string * Z * Z))
  : list string :=
  match scores with
  | [] => []
  | (nick, score, set_at) :: rest =>
      let age := _format_age (now - set_at) in
      (pretty idx +:+ ". " +:+ nick +:+ " " +:+ pretty score
         +:+ " (" +:+ age +:+ ")")
      :: highscore_parts now (idx + 1) rest
  end.

(** [highscores]: the table afterwards and the line sent. The clock is read
    twice, by [_get_channel_highscores] ([clock]) and for the ages
    ([clock']). *)
Definition highscores (db : table) (sender : string) (clock clock' : Z)
  : table * string :=
  if negb (startswith sender "#") then
    (db, "High scores are channel-specific; use this in a channel.")
  else
    let '(db1, scores) := _get_channel_highscores db (lower sender) 10 clock in
    match scores with
    | [] => (db1, "No weekly high scores yet. Roll some dice!")
    | _ =>
        let now := clock' in
        (db1, "Weekly highs: " +:+ String.concat " | " (highscore_parts now 1 scores))
    end.

(** The last statements of [roll], once [result] is known to be an integer:
    the weekly high score of a roll made in a channel. The table afterwards
    and the lines sent with [bot.say]. *)
Definition roll_highscore (db : table) (sender nick : string) (result clock : Z)
  : table * list string :=
  if startswith sender "#" then
    let channel := lower sender in
    let '(db', prev) := _update_highscore db channel nick result None clock in
    match prev with
    | None =>
        (db', ["New weekly high score for " +:+ nick +:+ ": "
                 +:+ pretty result +:+ "!"])
    | Some p =>
        if p <? result then
          (db', [nick +:+ " beats their previous weekly high (" +:+ pretty p
                   +:+ ") with " +:+ pretty result +:+ "!"])
        else (db', [])
    end
  else (db, []).

(** The order of the leaderboard: a higher score first, and of two equal
    scores the one set earlier. *)
Definition ranks_before (r1 r2 : string * Z * Z) : Prop :=
  row_before r1 r2 = true.

(** ** What a regular expression matches

    [matches ic r w caps caps'] : the text [w] is matched by [r], the named
    groups met on the way being added to [caps], which gives [caps']. *)
Inductive matches (ic : bool) : regex -> string -> captures -> captures -> Prop :=
| matches_Chr c c' caps :
    chr_matches ic c c' = true ->
    matches ic (Chr c) (String c' EmptyString) caps caps
| matches_Digit c' caps :
    is_digit c' = true ->
    matches ic Digit (String c' EmptyString) caps caps
| matches_Cat r1 r2 w1 w2 caps0 caps1 caps2 :
    matches ic r1 w1 caps0 caps1 ->
    matches ic r2 w2 caps1 caps2 ->
    matches ic (Cat r1 r2) (w1 +:+ w2) caps0 caps2
| matches_Opt_some r w caps0 caps1 :
    matches ic r w caps0 caps1 ->
    matches ic (Opt r) w caps0 caps1
| matches_Opt_none r caps :
    matches ic (Opt r) EmptyString caps caps
| matches_Star_nil r caps :
    matches ic (Star r) EmptyString caps caps
| matches_Star_cons r w1 w2 caps0 caps1 caps2 :
    matches ic r w1 caps0 caps1 ->
    matches ic (Star r) w2 caps1 caps2 ->
    matches ic (Star r) (w1 +:+ w2) caps0 caps2
| matches_Plus r w1 w2 caps0 caps1 caps2 :
    matches ic r w1 caps0 caps1 ->
    matches ic (Star r) w2 caps1 caps2 ->
    matches ic (Plus r) (w1 +:+ w2) caps0 caps2
| matches_Group name r w caps0 caps1 :
    matches ic r w caps0 caps1 ->
    matches ic (Group name r) w caps0 (bind_group name w caps1).

(** [s] is made of decimal digits only. *)
Fixpoint all_digits (s : string) : bool :=
  match s with
  | EmptyString => true
  | String c s' => is_digit c && all_digits s'
  end.

(** The texts of the pattern [-?\d*], and those of [-?\d+]. *)
Definition sign_and_digits (t : string) : Prop :=
  exists ds, all_digits ds = true /\ (t = ds \/ t = String "-" ds).

Definition signed_number (t : string) : Prop :=
  exists ds, all_digits ds = true /\ ds <> EmptyString
             /\ (t = ds \/ t = String "-" ds).

(** The groups of a dice token: a count that is a sign and digits (possibly
    neither), faces that are a signed number and, when there is a drop, a
    drop count that is a signed number. *)
Definition dice_token (m : Match) : Prop :=
  (exists t, group m "dice_num" = Some t /\ sign_and_digits t)
  /\ (exists t, group m "dice_type" = Some t /\ signed_number t)
  /\ (group m "drop_lowest" = None
      \/ exists t, group m "drop_lowest" = Some t /\ signed_number t).

(** No literal of [r] matches ["%"]. *)
Fixpoint percent_free (ic : bool) (r : regex) : bool :=
  match r with
  | Chr c => negb (chr_matches ic c "%")
  | Digit => true
  | Cat r1 r2 => percent_free ic r1 && percent_free ic r2
  | Opt r1 | Star r1 | Plus r1 | Group _ r1 => percent_free ic r1
  end.

(** [s] with its matches replaced, in order, by the texts of [texts] (by
    nothing once they run out): what [re.sub] does with a function for a
    replacement. *)
Fixpoint sub_each_from (fuel : nat) (ignorecase : bool) (r : regex) (s : string)
    (texts : list string) : string :=
  match fuel with
  | O => s
  | S fuel' =>
      match match_here ignorecase r s with
      | Some (_, rest) =>
          let text := match texts with t :: _ => t | [] => EmptyString end in
          if (String.length rest <? String.length s)%nat
          then text +:+ sub_each_from fuel' ignorecase r rest (tail texts)
          else text +:+ match s with
                        | String c s' =>
                            String c (sub_each_from fuel' ignorecase r s' (tail texts))
                        | EmptyString => EmptyString
                        end
      | None =>
          match s with
          | String c s' => String c (sub_each_from fuel' ignorecase r s' texts)
          | EmptyString => EmptyString
          end
      end
  end.

Definition re_sub_each (ignorecase : bool) (r : regex) (s : string)
    (texts : list string) : string :=
  sub_each_from (S (String.length s)) ignorecase r s texts.

(** What [_roll_dice] hands back: a pouch of at most [MAX_DICE] dice with at
    least one face, kept and dropped faces within [1..type] with positive
    counts, kept and dropped dice adding up to the number rolled. *)
Definition pouch_sound (dp : DicePouch) : Prop :=
  0 <= num dp <= MAX_DICE /\ 1 <= type dp
  /\ rolled_wf (type dp) (dice dp) /\ rolled_wf (type dp) (dropped dp)
  /\ total (dice dp) + total (dropped dp) = num dp.

(** A match and its groups with every letter in lower case. *)
Definition lower_caps (caps : captures) : captures :=
  map (fun '(name, text) => (name, lower text)) caps.

Definition lower_match (m : Match) : Match :=
  mkMatch (lower (group0 m)) (lower_caps (groupdict m)).

(** A line of text that the embedding reads as Python does: ASCII
    characters only, and no longer than an IRC message. Beyond ASCII,
    Python's [\d], [int], [str.strip] and [str.lower] know more digits,
    blanks and letters; [int] refuses texts of several thousand digits. *)
Fixpoint all_ascii (s : string) : bool :=
  match s with
  | EmptyString => true
  | String c s' => (nat_of_ascii c <? 128)%nat && all_ascii s'
  end.

Definition ascii_line (s : string) : bool :=
  (String.length s <=? 512)%nat && all_ascii s.
(** ** Dictionary lemmas *)

#[local] Arguments keys : simpl never.
#[local] Arguments values : simpl never.
#[local] Arguments total : simpl never.

Section dict_lemmas.
Implicit Types (d : dict) (k v : Z).

Lemma keys_cons k v d : keys ((k, v) :: d) = k :: keys d.
Proof. reflexivity. Qed.

Lemma dict_get_None d k : dict_get d k = None <-> k ∉ keys d.
Proof.
  induction d as [|[k' v'] d IH]; simpl.
  - split; [intros _; apply not_elem_of_nil | done].
  - rewrite keys_cons, not_elem_of_cons.
    destruct (Z.eqb_spec k' k); [split; [discriminate | intros []; congruence]|].
    rewrite IH. split; [intros; split; congruence | tauto].
Qed.

Lemma dict_get_None_inv d k : k ∈ keys d -> dict_get d k <> None.
Proof. intros H E. by apply dict_get_None in E. Qed.

Lemma dict_get_in_keys d k : dict_get d k <> None -> k ∈ keys d.
Proof.
  intros H. destruct (decide (k ∈ keys d)) as [|Hn]; [done|].
  by apply dict_get_None in Hn.
Qed.

Lemma dict_get_Some_elem d k v : dict_get d k = Some v -> (k, v) ∈ d.
Proof.
  induction d as [|[k' v'] d IH]; simpl; [discriminate|].
  destruct (Z.eqb_spec k' k).
  - intros [= ->]; subst. apply list_elem_of_here.
  - intros H. apply list_elem_of_further; auto.
Qed.

Lemma elem_keys d k v : (k, v) ∈ d -> k ∈ keys d.
Proof. intros H. apply list_elem_of_fmap. exists (k, v). done. Qed.

Lemma keys_elem d k : k ∈ keys d -> exists v, dict_get d k = Some v.
Proof.
  intros H. destruct (dict_get d k) eqn:E; [eauto|].
  apply dict_get_None in E. contradiction.
Qed.

Lemma elem_dict_get d k v : dict_wf d -> (k, v) ∈ d -> dict_get d k = Some v.
Proof.
  unfold dict_wf. induction d as [|[k' v'] d IH]; simpl.
  - intros _ H. by apply elem_of_nil in H.
  - rewrite keys_cons, NoDup_cons, elem_of_cons. intros [Hk' Hd] [H|H].
    + inversion H; subst. by rewrite Z.eqb_refl.
    + destruct (Z.eqb_spec k' k); [subst; elim Hk'; eauto using elem_keys | auto].
Qed.

Lemma dict_get_set_eq d k v : dict_get (dict_set d k v) k = Some v.
Proof.
  induction d as [|[k' v'] d IH]; simpl; [by rewrite Z.eqb_refl|].
  destruct (Z.eqb_spec k' k) as [->|Hne]; simpl.
  - by rewrite Z.eqb_refl.
  - destruct (Z.eqb_spec k' k); [contradiction | exact IH].
Qed.

Lemma dict_get_set_ne d k k0 v : k <> k0 -> dict_get (dict_set d k v) k0 = dict_get d k0.
Proof.
  intros Hne. induction d as [|[k' v'] d IH]; simpl.
  - destruct (Z.eqb_spec k k0); [contradiction | reflexivity].
  - destruct (Z.eqb_spec k' k) as [->|Hk]; simpl.
    + destruct (Z.eqb_spec k k0); [contradiction | reflexivity].
    + by rewrite IH.
Qed.

Lemma keys_set_present d k v : dict_get d k <> None -> keys (dict_set d k v) = keys d.
Proof.
  induction d as [|[k' v'] d IH]; simpl; [congruence|].
  destruct (Z.eqb_spec k' k); [reflexivity|].
  intros H. rewrite !keys_cons. by rewrite IH.
Qed.

Lemma dict_set_absent d k v : dict_get d k = None -> dict_set d k v = d ++ [(k, v)].
Proof.
  induction d as [|[k' v'] d IH]; simpl; [reflexivity|].
  destruct (Z.eqb_spec k' k); simpl; [discriminate|].
  intros H. by rewrite IH.
Qed.

Lemma keys_set_absent d k v : dict_get d k = None -> keys (dict_set d k v) = keys d ++ [k].
Proof. intros H. rewrite dict_set_absent by done. unfold keys. by rewrite fmap_app. Qed.

Lemma elem_keys_set d k v x : x ∈ keys (dict_set d k v) <-> x = k \/ x ∈ keys d.
Proof.
  destruct (dict_get d k) eqn:E.
  - rewrite keys_set_present by congruence. split; [auto|].
    intros [->|H]; [|done]. apply dict_get_Some_elem in E. eauto using elem_keys.
  - rewrite keys_set_absent by done. rewrite elem_of_app, list_elem_of_singleton. tauto.
Qed.

Lemma dict_set_set d k v w : dict_set (dict_set d k v) k w = dict_set d k w.
Proof.
  induction d as [|[k' v'] d IH]; simpl; [by rewrite Z.eqb_refl|].
  destruct (Z.eqb_spec k' k) as [->|Hk]; simpl.
  - by rewrite Z.eqb_refl.
  - destruct (Z.eqb_spec k' k); [contradiction | by rewrite IH].
Qed.

Lemma dict_wf_set d k v : dict_wf d -> dict_wf (dict_set d k v).
Proof.
  unfold dict_wf. intros Hwf.
  destruct (dict_get d k) eqn:E.
  - rewrite keys_set_present; [exact Hwf | congruence].
  - rewrite keys_set_absent by exact E.
    apply NoDup_app. split; [done|]. split; [|apply NoDup_singleton].
    apply dict_get_None in E. intros x Hx ->%list_elem_of_singleton. contradiction.
Qed.

Lemma total_cons k v d : total ((k, v) :: d) = v + total d.
Proof. reflexivity. Qed.

Lemma total_app d1 d2 : total (d1 ++ d2) = total d1 + total d2.
Proof.
  induction d1 as [|[k v] d1 IH]; simpl; [reflexivity|].
  rewrite !total_cons, IH. lia.
Qed.

Lemma total_set d k v : total (dict_set d k v) = total d - dict_get_default d k 0 + v.
Proof.
  unfold dict_get_default.
  induction d as [|[k' v'] d IH]; simpl; [rewrite total_cons; unfold total; simpl; lia|].
  destruct (Z.eqb_spec k' k); rewrite !total_cons; [lia|].
  rewrite IH. lia.
Qed.

Lemma total_del d k : total (dict_del d k) = total d - dict_get_default d k 0.
Proof.
  unfold dict_get_default.
  induction d as [|[k' v'] d IH]; simpl; [lia|].
  destruct (Z.eqb_spec k' k); rewrite !total_cons; [lia|].
  rewrite IH. lia.
Qed.

Lemma keys_del_incl d k x : x ∈ keys (dict_del d k) -> x ∈ keys d.
Proof.
  induction d as [|[k' v'] d IH]; simpl; [done|].
  destruct (Z.eqb_spec k' k); rewrite !keys_cons, ?elem_of_cons; tauto.
Qed.

Lemma dict_wf_del d k : dict_wf d -> dict_wf (dict_del d k).
Proof.
  unfold dict_wf. induction d as [|[k' v'] d IH]; simpl; [auto|].
  rewrite keys_cons, NoDup_cons. intros [Hk' Hd].
  destruct (Z.eqb_spec k' k); [exact Hd|].
  rewrite keys_cons, NoDup_cons. split; [|auto].
  intros Hin. apply Hk'. eauto using keys_del_incl.
Qed.

Lemma dict_get_del_eq d k : dict_wf d -> dict_get (dict_del d k) k = None.
Proof.
  unfold dict_wf. induction d as [|[k' v'] d IH]; simpl; [auto|].
  rewrite keys_cons, NoDup_cons. intros [Hk' Hd].
  destruct (Z.eqb_spec k' k) as [->|Hk]; simpl.
  - by apply dict_get_None.
  - destruct (Z.eqb_spec k' k); [contradiction | auto].
Qed.

Lemma dict_get_del_ne d k k0 : k <> k0 -> dict_get (dict_del d k) k0 = dict_get d k0.
Proof.
  intros Hne. induction d as [|[k' v'] d IH]; simpl; [reflexivity|].
  destruct (Z.eqb_spec k' k) as [->|Hk]; simpl.
  - destruct (Z.eqb_spec k k0); [contradiction | reflexivity].
  - by rewrite IH.
Qed.

Lemma dict_empty_get d : (forall k, dict_get d k = None) -> d = [].
Proof.
  intros H. destruct d as [|[k v] d]; [reflexivity|].
  specialize (H k). simpl in H. rewrite Z.eqb_refl in H. discriminate.
Qed.
End dict_lemmas.

(** ** Sorting lemmas *)

Lemma insert_sorted_perm {A} (le : A -> A -> bool) x l : insert_sorted le x l ≡ₚ x :: l.
Proof.
  induction l as [|y l IH]; simpl; [reflexivity|].
  destruct (le x y); [reflexivity|].
  rewrite IH. apply perm_swap.
Qed.

Lemma sort_by_perm {A} (le : A -> A -> bool) l : sort_by le l ≡ₚ l.
Proof.
  unfold sort_by. induction l as [|x l IH]; simpl; [reflexivity|].
  rewrite insert_sorted_perm. by constructor.
Qed.

Lemma sorted_items_perm d : sorted_items d ≡ₚ d.
Proof. apply sort_by_perm. Qed.

Lemma insert_by_key_sorted x l :
  StronglySorted Z.le (keys l) ->
  StronglySorted Z.le (keys (insert_sorted (fun x y => fst x <=? fst y) x l)).
Proof.
  induction l as [|y l IH]; simpl; intros Hs.
  - repeat constructor.
  - destruct x as [kx vx], y as [ky vy]. simpl.
    rewrite keys_cons in Hs. apply StronglySorted_inv in Hs as [Hs' Hall].
    destruct (Z.leb_spec kx ky); rewrite !keys_cons.
    + constructor; [by constructor|]. constructor; [assumption|].
      eapply Forall_impl; [exact Hall|]. simpl. intros. lia.
    + constructor; [auto|].
      unfold keys. rewrite (insert_sorted_perm _ (kx, vx) l). simpl.
      constructor; [lia | exact Hall].
Qed.

Lemma sorted_items_sorted d : StronglySorted Z.le (keys (sorted_items d)).
Proof.
  unfold sorted_items, sort_by. induction d as [|x d IH]; simpl; [constructor|].
  by apply insert_by_key_sorted.
Qed.

(** ** Rolling: the invariant of a freshly rolled pouch *)

Lemma elem_dict_set d k v k0 v0 :
  (k0, v0) ∈ dict_set d k v -> (k0, v0) = (k, v) \/ (k0, v0) ∈ d.
Proof.
  induction d as [|[k' v'] d IH]; simpl.
  - rewrite list_elem_of_singleton. auto.
  - destruct (Z.eqb_spec k' k) as [->|Hne]; rewrite !elem_of_cons; intuition.
Qed.

Lemma setdefault_then_set d k w :
  let '(d1, count) := setdefault d k 0 in
  dict_set d1 k (count + w) = dict_set d k (dict_get_default d k 0 + w).
Proof.
  unfold setdefault, dict_get_default. destruct (dict_get d k); [reflexivity|].
  apply dict_set_set.
Qed.

Lemma randint_ok a b g :
  a <= b -> exists x, randint a b g = Ok (x, fun k => g (S k)) /\ a <= x <= b.
Proof.
  intros Hab. unfold randint. destruct (Z.ltb_spec b a); [lia|].
  eexists; split; [reflexivity|].
  pose proof (Z.mod_pos_bound (g 0%nat) (b - a + 1)). lia.
Qed.

Lemma roll_loop_spec n ty d g :
  1 <= ty -> rolled_wf ty d ->
  exists d' g', roll_loop n ty d g = Ok (d', g')
    /\ rolled_wf ty d' /\ total d' = total d + Z.of_nat n.
Proof.
  intros Hty. revert d g. induction n as [|n IH]; intros d g Hwf; simpl.
  - exists d, g. split; [reflexivity|]. split; [exact Hwf | lia].
  - destruct (randint_ok 1 ty g Hty) as (x & -> & Hx). simpl.
    pose proof (setdefault_then_set d x 1) as Hset.
    destruct (setdefault d x 0) as [d1 count]. rewrite Hset.
    destruct Hwf as [Hnd Hall].
    assert (0 <= dict_get_default d x 0) as Hge.
    { unfold dict_get_default. destruct (dict_get d x) eqn:E; [|lia].
      apply dict_get_Some_elem, Hall in E. lia. }
    destruct (IH (dict_set d x (dict_get_default d x 0 + 1)) (fun k => g (S k)))
      as (d' & g' & Hrun & Hwf' & Htot).
    + split; [by apply dict_wf_set|].
      intros k v [[= -> ->]|Hin]%elem_dict_set; [lia | auto].
    + exists d', g'. split; [exact Hrun|]. split; [exact Hwf'|].
      rewrite Htot, total_set. lia.
Qed.

Lemma DicePouch_init_spec count faces g :
  0 <= count -> 1 <= faces ->
  exists dp g', DicePouch_init count faces g = Ok (dp, g')
    /\ num dp = count /\ type dp = faces /\ dropped dp = []
    /\ rolled_wf faces (dice dp) /\ total (dice dp) = count.
Proof.
  intros Hc Hf. unfold DicePouch_init, roll_dice. simpl.
  destruct (roll_loop_spec (Z.to_nat count) faces [] g Hf) as (d & g' & -> & Hwf & Htot).
  - split; [apply NoDup_nil_2|]. intros k v H. by apply elem_of_nil in H.
  - simpl. exists (mkDicePouch count faces d []), g'.
    do 4 (split; [reflexivity|]). split; [exact Hwf|].
    simpl. rewrite Htot. unfold total. simpl. lia.
Qed.

(** ** Dropping the lowest dice *)

Lemma total_nonneg (l : dict) : (forall k v, (k, v) ∈ l -> 0 < v) -> 0 <= total l.
Proof.
  induction l as [|[k v] l IH]; intros H; [done|].
  rewrite total_cons. pose proof (H k v (list_elem_of_here _ _)).
  assert (0 <= total l) by (apply IH; intros; eapply H, list_elem_of_further; eauto).
  lia.
Qed.

Lemma dict_get_default_set_eq d k v : dict_get_default (dict_set d k v) k 0 = v.
Proof. unfold dict_get_default. by rewrite dict_get_set_eq. Qed.

Lemma dict_get_default_set_ne d k k0 v :
  k <> k0 -> dict_get_default (dict_set d k v) k0 0 = dict_get_default d k0 0.
Proof. intros. unfold dict_get_default. by rewrite dict_get_set_ne. Qed.

(** What the first loop of [drop_lowest] does to [self.dice] and
    [self.dropped], for a snapshot [l] of pending face groups that is sorted,
    agrees with [kept] and is disjoint from [drp]. *)
Lemma drop_loop_spec (l : list (Z * Z)) : forall n kept drp,
  0 <= n ->
  NoDup (keys l) ->
  StronglySorted Z.le (keys l) ->
  (forall i c, (i, c) ∈ l -> dict_get kept i = Some c /\ 0 < c) ->
  (forall i, i ∈ keys l -> dict_get drp i = None) ->
  exists kept' drp',
    drop_loop l n kept drp = Ok (kept', drp')
    /\ keys kept' = keys kept
    /\ (forall k, k ∉ keys l -> dict_get kept' k = dict_get kept k)
    /\ (forall k, k ∈ keys l -> exists v, dict_get kept' k = Some v /\ 0 <= v)
    /\ (forall k, dict_get_default kept' k 0 + dict_get_default drp' k 0
                  = dict_get_default kept k 0 + dict_get_default drp k 0)
    /\ total kept' = total kept - Z.min n (total l)
    /\ total drp' = total drp + Z.min n (total l)
    /\ (exists taken, drp' = drp ++ taken
          /\ keys taken `prefix_of` keys l
          /\ forall k v, (k, v) ∈ taken -> k ∈ keys l /\ 0 < v)
    /\ (forall k, k ∈ keys l -> dict_get kept' k = Some 0 -> dict_get drp' k <> None)
    /\ (forall k k', dict_get drp k = None -> dict_get drp' k <> None ->
          k' ∈ keys l -> dict_get kept' k' <> Some 0 -> k <= k')
    /\ (total l <= n ->
          (forall k, k ∈ keys l -> dict_get kept' k = Some 0) /\ drp' = drp ++ l).
Proof.
  induction l as [|[i c] rest IH]; intros n kept drp Hn Hnd Hsort Hsnap Hfresh.
  - exists kept, drp. simpl.
    assert (total ([] : dict) = 0) as -> by reflexivity.
    replace (Z.min n 0) with 0 by lia.
    split; [reflexivity|]. split; [reflexivity|]. split; [done|].
    split; [intros k Hk; by apply elem_of_nil in Hk|].
    split; [done|]. split; [lia|]. split; [lia|].
    split; [exists []; split; [by rewrite app_nil_r|];
             split; [apply prefix_nil | intros k v Hk; by apply elem_of_nil in Hk]|].
    split; [intros k Hk; by apply elem_of_nil in Hk|].
    split; [intros k k' _ _ Hk; by apply elem_of_nil in Hk|].
    intros _. split; [intros k Hk; by apply elem_of_nil in Hk | by rewrite app_nil_r].
  - rewrite keys_cons in Hnd, Hsort.
    apply NoDup_cons in Hnd as [Hi Hnd].
    apply StronglySorted_inv in Hsort as [Hsort Hle].
    rewrite Forall_forall in Hle.
    destruct (Hsnap i c (list_elem_of_here _ _)) as [Hget Hc].
    assert (Hdrp : dict_get drp i = None) by (apply Hfresh; rewrite keys_cons; left).
    assert (Hrest_pos : forall k v, (k, v) ∈ rest -> 0 < v).
    { intros k v Hkv. eapply Hsnap, list_elem_of_further, Hkv. }
    pose proof (total_nonneg rest Hrest_pos) as Htr.
    assert (Hkd : dict_get_default kept i 0 = c) by (unfold dict_get_default; by rewrite Hget).
    assert (Hdd : dict_get_default drp i 0 = 0) by (unfold dict_get_default; by rewrite Hdrp).
    assert (Hpend : forall k, k ∈ keys ((i, c) :: rest) ->
              exists v, dict_get kept k = Some v /\ 0 < v).
    { intros k [v Hv%dict_get_Some_elem]%keys_elem. exists v. by apply Hsnap. }
    assert (Hne : forall k, k ∈ keys rest -> i <> k) by (intros k Hk ->; contradiction).
    simpl. unfold dict_getitem. rewrite Hget. simpl. rewrite total_cons.
    destruct (Z.eqb_spec n 0) as [->|Hn0]; [|destruct (Z.ltb_spec n c) as [Hlt|Hge]].
    + (* n == 0: break *)
      exists kept, drp. replace (Z.min 0 (c + total rest)) with 0 by lia.
      split; [reflexivity|]. split; [reflexivity|]. split; [done|].
      split; [intros k (v & Hv & Hpos)%Hpend; exists v; split; [done | lia]|].
      split; [done|]. split; [lia|]. split; [lia|].
      split; [exists []; split; [by rewrite app_nil_r|];
             split; [apply prefix_nil | intros k v Hk; by apply elem_of_nil in Hk]|].
      split; [intros k (v & Hv & Hpos)%Hpend Hz; rewrite Hv in Hz; injection Hz; lia|].
      split; [intros k k' Hnone Hsome; contradiction|].
      intros Hle0. lia.
    + (* n < count: split the group and break *)
      exists (dict_set kept i (c - n)), (dict_set drp i n).
      replace (Z.min n (c + total rest)) with n by lia.
      split; [reflexivity|].
      split; [apply keys_set_present; congruence|].
      split.
      { intros k Hk. rewrite keys_cons, not_elem_of_cons in Hk.
        rewrite dict_get_set_ne; [done | intros ->; tauto]. }
      split.
      { intros k Hk. destruct (decide (k = i)) as [->|Hki].
        - exists (c - n). rewrite dict_get_set_eq. split; [done | lia].
        - rewrite dict_get_set_ne by congruence.
          destruct (Hpend k Hk) as (v & Hv & Hpos). exists v. split; [done | lia]. }
      split.
      { intros k. destruct (decide (k = i)) as [->|Hki].
        - rewrite !dict_get_default_set_eq. lia.
        - rewrite !dict_get_default_set_ne by congruence. done. }
      split; [rewrite total_set; lia|]. split; [rewrite total_set; lia|].
      split.
      { exists [(i, n)]. split; [by apply dict_set_absent|].
        split; [rewrite keys_cons; apply prefix_cons, prefix_nil|].
        intros k v [= -> ->]%list_elem_of_singleton. split; [rewrite keys_cons; left | lia]. }
      split.
      { intros k Hk. destruct (decide (k = i)) as [->|Hki].
        - rewrite dict_get_set_eq. intros [= Hz]. lia.
        - rewrite dict_get_set_ne by congruence.
          destruct (Hpend k Hk) as (v & Hv & Hpos). rewrite Hv. intros [= Hz]. lia. }
      split.
      { intros k k' Hnone Hsome Hk' _.
        assert (k = i) as ->.
        { destruct (decide (k = i)) as [->|Hki]; [done|].
          rewrite dict_get_set_ne in Hsome by congruence. contradiction. }
        rewrite keys_cons, elem_of_cons in Hk'. destruct Hk' as [->|Hk']; [lia | by apply Hle]. }
      intros Hle0. lia.
    + (* n >= count: the whole group goes, continue with the next one *)
      destruct (IH (n - c) (dict_set kept i 0) (dict_set drp i c))
        as (kept' & drp' & Hrun & Hkeys & HC & HG & HD & Htk & Htd
            & (taken & Htaken & Hpre & Htpos) & HI & HJ & HK); [lia | done | done | | |].
      { intros j c' Hj. rewrite dict_get_set_ne by (eapply Hne, elem_keys, Hj).
        apply Hsnap. by apply list_elem_of_further. }
      { intros j Hj. rewrite dict_get_set_ne by by apply Hne.
        apply Hfresh. rewrite keys_cons. by right. }
      assert (Hi0 : dict_get kept' i = Some 0).
      { rewrite HC by done. apply dict_get_set_eq. }
      exists kept', drp'.
      replace (Z.min n (c + total rest)) with (c + Z.min (n - c) (total rest)) by lia.
      split; [exact Hrun|].
      split; [rewrite Hkeys; apply keys_set_present; congruence|].
      split.
      { intros k Hk. rewrite keys_cons, not_elem_of_cons in Hk.
        rewrite HC by tauto. rewrite dict_get_set_ne; [done | intros ->; tauto]. }
      split.
      { intros k Hk. rewrite keys_cons, elem_of_cons in Hk. destruct Hk as [->|Hk].
        - exists 0. split; [done | lia].
        - by apply HG. }
      split.
      { intros k. rewrite HD. destruct (decide (k = i)) as [->|Hki].
        - rewrite !dict_get_default_set_eq. lia.
        - rewrite !dict_get_default_set_ne by congruence. done. }
      split; [rewrite Htk, total_set; lia|]. split; [rewrite Htd, total_set; lia|].
      split.
      { exists ((i, c) :: taken). split; [|split].
        - rewrite Htaken, (dict_set_absent drp i c Hdrp), <- app_assoc. done.
        - rewrite !keys_cons. by apply prefix_cons.
        - intros k v [[= -> ->]|Hkv]%elem_of_cons; rewrite keys_cons, elem_of_cons.
          + split; [by left | lia].
          + destruct (Htpos k v Hkv). split; [by right | done]. }
      split.
      { intros k Hk Hz. rewrite keys_cons, elem_of_cons in Hk. destruct Hk as [->|Hk].
        - specialize (HD i). rewrite !dict_get_default_set_eq in HD.
          unfold dict_get_default in HD at 1 2. rewrite Hi0 in HD.
          destruct (dict_get drp' i); [done | lia].
        - by apply HI. }
      split.
      { intros k k' Hnone Hsome Hk' Hnz.
        rewrite keys_cons, elem_of_cons in Hk'. destruct Hk' as [->|Hk']; [contradiction|].
        destruct (decide (k = i)) as [->|Hki]; [by apply Hle|].
        apply HJ; [|done..]. rewrite dict_get_set_ne by congruence. done. }
      intros Hle0. destruct HK as [HK1 HK2]; [lia|]. split.
      { intros k Hk. rewrite keys_cons, elem_of_cons in Hk. destruct Hk as [->|Hk]; auto. }
      rewrite HK2, (dict_set_absent drp i c Hdrp), <- app_assoc. done.
Qed.

Lemma drop_loop_wf (l : list (Z * Z)) : forall n kept drp kept' drp',
  dict_wf drp -> drop_loop l n kept drp = Ok (kept', drp') -> dict_wf drp'.
Proof.
  induction l as [|[i c] rest IH]; intros n kept drp kept' drp' Hwf; simpl.
  - by intros [= _ <-].
  - unfold dict_getitem. destruct (dict_get kept i) as [count|]; simpl; [|done].
    destruct (n =? 0); [by intros [= _ <-]|].
    destruct (n <? count); [intros [= _ <-]; by apply dict_wf_set|].
    apply IH. by apply dict_wf_set.
Qed.

Lemma cleanup_test kept i :
  (dict_get_default kept i 0 =? 0) && dict_mem kept i = true <-> dict_get kept i = Some 0.
Proof.
  unfold dict_get_default, dict_mem. rewrite andb_true_iff, Z.eqb_eq.
  destruct (dict_get kept i) as [v|].
  - split; [intros [-> _]; done | intros [= ->]; done].
  - split; [intros [_ H]; done | done].
Qed.

(** The second loop of [drop_lowest] deletes exactly the faces listed in
    [items] whose kept count is zero. *)
Lemma drop_cleanup_spec (items : list (Z * Z)) : forall kept,
  dict_wf kept ->
  dict_wf (drop_cleanup items kept)
  /\ total (drop_cleanup items kept) = total kept
  /\ (forall k, dict_get (drop_cleanup items kept) k =
        if decide (dict_get kept k = Some 0 /\ k ∈ keys items)
        then None else dict_get kept k).
Proof.
  induction items as [|[i c] rest IH]; intros kept Hwf; simpl.
  - split; [done|]. split; [done|]. intros k. case_decide as H; [|done].
    destruct H as [_ H]. by apply elem_of_nil in H.
  - pose proof (cleanup_test kept i) as Htest.
    destruct ((dict_get_default kept i 0 =? 0) && dict_mem kept i).
    + assert (Hz : dict_get kept i = Some 0) by by apply Htest.
      destruct (IH (dict_del kept i) (dict_wf_del _ _ Hwf)) as (Hwf' & Htot & Hget).
      split; [done|]. split.
      { rewrite Htot, total_del. unfold dict_get_default. rewrite Hz. lia. }
      intros k. rewrite Hget, keys_cons. destruct (decide (k = i)) as [->|Hki].
      * rewrite dict_get_del_eq by done.
        pose proof (elem_of_cons (keys rest) i i) as Hcons.
        repeat case_decide; try done; exfalso; intuition congruence.
      * rewrite dict_get_del_ne by congruence.
        pose proof (elem_of_cons (keys rest) k i) as Hcons.
        repeat case_decide; try done; exfalso; intuition congruence.
    + assert (Hz : dict_get kept i <> Some 0) by (intros H%Htest; done).
      destruct (IH kept Hwf) as (Hwf' & Htot & Hget).
      split; [done|]. split; [done|].
      intros k. rewrite Hget, keys_cons.
      pose proof (elem_of_cons (keys rest) k i) as Hcons.
        repeat case_decide; try done; exfalso; intuition congruence.
Qed.

Lemma total_perm (l1 l2 : dict) : l1 ≡ₚ l2 -> total l1 = total l2.
Proof.
  induction 1 as [|[k v] l1 l2 _ IH|[k1 v1] [k2 v2] l|l1 l2 l3 _ IH1 _ IH2].
  - done.
  - rewrite !total_cons. lia.
  - rewrite !total_cons. lia.
  - congruence.
Qed.

(** [drop_lowest] on a freshly rolled pouch. *)
Lemma drop_lowest_spec (dp : DicePouch) (ty n : Z) :
  rolled_wf ty (dice dp) -> dropped dp = [] -> 0 <= n ->
  exists dp',
    drop_lowest dp n = Ok dp'
    /\ num dp' = num dp /\ type dp' = type dp
    /\ rolled_wf ty (dice dp') /\ rolled_wf ty (dropped dp')
    /\ total (dice dp') = total (dice dp) - Z.min n (total (dice dp))
    /\ total (dropped dp') = Z.min n (total (dice dp))
    /\ (forall k, dict_get_default (dice dp') k 0 + dict_get_default (dropped dp') k 0
                  = dict_get_default (dice dp) k 0)
    /\ (forall k k', k ∈ keys (dropped dp') -> k' ∈ keys (dice dp') -> k <= k')
    /\ keys (dropped dp') `prefix_of` keys (sorted_items (dice dp))
    /\ (total (dice dp) <= n ->
          dice dp' = [] /\ dropped dp' = sorted_items (dice dp)).
Proof.
  destruct dp as [nm tp d drp0]. simpl. intros [Hwf Hall] -> Hn.
  pose proof (sorted_items_perm d) as Hperm.
  assert (Hkperm : keys (sorted_items d) ≡ₚ keys d) by (unfold keys; by rewrite Hperm).
  assert (Hkin : forall k, k ∈ keys (sorted_items d) <-> k ∈ keys d).
  { intros k. by rewrite Hkperm. }
  assert (Hrange : forall k, k ∈ keys d -> 1 <= k <= ty).
  { intros k [v Hv%dict_get_Some_elem]%keys_elem. by apply (Hall k v). }
  destruct (drop_loop_spec (sorted_items d) n d []) as
    (kept' & drp' & Hrun & Hkeys & HC & HG & HD & Htk & Htd
     & (taken & Htaken & Hpre & Htpos) & HI & HJ & HK).
  { done. }
  { unfold dict_wf in Hwf. by rewrite Hkperm. }
  { apply sorted_items_sorted. }
  { intros i c Hic. rewrite Hperm in Hic. split; [by apply elem_dict_get | by apply (Hall i c)]. }
  { done. }
  simpl in Htaken. subst drp'.
  rewrite (total_perm _ _ Hperm) in Htk, Htd, HK.
  assert (Hwfk : dict_wf kept') by (unfold dict_wf; by rewrite Hkeys).
  destruct (drop_cleanup_spec taken kept' Hwfk) as (Hwfc & Htotc & Hgetc).
  assert (Hpos : forall k v, dict_get (drop_cleanup taken kept') k = Some v ->
            dict_get kept' k = Some v /\ k ∈ keys d /\ 0 < v).
  { intros k v Hkv. rewrite Hgetc in Hkv. case_decide as Hdec; [done|].
    assert (k ∈ keys d) as Hk.
    { rewrite <- Hkeys. eapply elem_keys, dict_get_Some_elem, Hkv. }
    split; [done|]. split; [done|].
    destruct (HG k) as (v' & Hv' & Hge); [by apply Hkin|].
    assert (v' = v) as -> by congruence.
    destruct (decide (v = 0)) as [->|]; [|lia].
    exfalso. apply Hdec. split; [done|].
    apply dict_get_in_keys. apply HI; [by apply Hkin | done]. }
  unfold drop_lowest. simpl. rewrite Hrun. simpl.
  eexists. split; [reflexivity|]. simpl.
  split; [done|]. split; [done|].
  split.
  { split; [done|]. intros k v Hkv%elem_dict_get; [|done].
    destruct (Hpos k v Hkv) as (_ & Hk & Hv). split; [by apply Hrange | done]. }
  split.
  { split; [eapply drop_loop_wf; [|exact Hrun]; apply NoDup_nil_2|].
    intros k v Hkv. destruct (Htpos k v Hkv) as [Hk Hv].
    split; [by apply Hrange, Hkin | done]. }
  split; [lia|]. split; [unfold total in Htd at 2; simpl in Htd; lia|].
  split.
  { intros k. rewrite <- (Z.add_0_r (dict_get_default d k 0)).
    change 0 with (dict_get_default [] k 0) at 4. rewrite <- HD. f_equal.
    unfold dict_get_default. rewrite Hgetc. case_decide as Hdec; [|done].
    destruct Hdec as [-> _]. done. }
  split.
  { intros k k' Hk [v Hv]%keys_elem. destruct (Hpos k' v Hv) as (Hv' & Hk' & Hvpos).
    apply HJ; [done | by apply dict_get_None_inv | by apply Hkin |].
    rewrite Hv'. intros [= ->]. lia. }
  split; [exact Hpre|].
  intros Hle. destruct (HK Hle) as [Hzero ->]. split; [|done].
  apply dict_empty_get. intros k. rewrite Hgetc.
  case_decide as Hdec; [done|].
  destruct (dict_get kept' k) as [v|] eqn:E; [|done].
  exfalso. apply Hdec.
  assert (k ∈ keys (sorted_items d)) as Hk.
  { apply Hkin. rewrite <- Hkeys. eapply elem_keys, dict_get_Some_elem, E. }
  split; [|done]. rewrite <- E. by apply Hzero.
Qed.

(** ** Which exceptions the pouch operations can raise *)

Lemma roll_loop_raises n ty d g e : roll_loop n ty d g = Raise e -> e = ValueError.
Proof.
  revert d g. induction n as [|n IH]; intros d g; simpl; [done|].
  unfold randint. destruct (ty <? 1); simpl; [by intros [= <-]|].
  destruct (setdefault d _ 0). apply IH.
Qed.

Lemma DicePouch_init_raises count faces g e :
  DicePouch_init count faces g = Raise e -> e = ValueError.
Proof.
  unfold DicePouch_init, roll_dice. simpl.
  destruct (roll_loop _ _ _ _) as [[d g']|e'] eqn:E; simpl; [done|].
  intros [= <-]. by eapply roll_loop_raises.
Qed.

Lemma drop_lowest_raises dp n e :
  drop_lowest dp n = Raise e -> exists k, e = KeyError k.
Proof.
  unfold drop_lowest.
  destruct (drop_loop _ _ _ _) as [[kept drp]|e'] eqn:E; simpl; [done|].
  intros [= <-]. revert E. generalize (dice dp) at 2. generalize (dropped dp).
  revert n. induction (sorted_items (dice dp)) as [|[i c] rest IH]; intros n drp kept; simpl; [done|].
  unfold dict_getitem. destruct (dict_get kept i) as [count|]; simpl; [|intros [= <-]; eauto].
  destruct (n =? 0); [done|]. destruct (n <? count); [done|]. apply IH.
Qed.

Lemma int_unsigned_raises t e : int_unsigned t = Raise e -> e = ValueError.
Proof.
  unfold int_unsigned. destruct t as [|c t]; [by intros [= <-]|].
  destruct (digits_value _ _); [done | by intros [= <-]].
Qed.

Lemma py_int_raises s e : py_int s = Raise e -> e = ValueError.
Proof.
  unfold py_int. destruct s as [|c t]; [apply int_unsigned_raises|].
  destruct (decide (c = "-"%char)) as [->|]; [|destruct (decide (c = "+"%char)) as [->|]].
  - destruct (int_unsigned t) as [v|e'] eqn:E; simpl; [done|].
    intros [= <-]. by eapply int_unsigned_raises.
  - apply int_unsigned_raises.
  - intros H. apply (int_unsigned_raises (String c t)). revert H.
    destruct c as [[] [] [] [] [] [] [] []]; try done.
Qed.

Lemma int_or_1_raises x e : int_or_1 x = Raise e -> e = ValueError.
Proof. unfold int_or_1. destruct (truthy x); [apply py_int_raises | done]. Qed.

Lemma int_of_group_raises x e :
  int_of_group x = Raise e -> e = ValueError \/ e = TypeError.
Proof.
  destruct x as [s|]; simpl; [intros H%py_int_raises; by left | intros [= <-]; by right].
Qed.

#[local] Arguments DicePouch_init : simpl never.
#[local] Arguments drop_lowest : simpl never.
#[local] Arguments py_int : simpl never.

(** ** The pouch invariants (C3, C4, C6, C10) *)

Lemma rolled_wf_nonneg ty d face times : rolled_wf ty d -> (face, times) ∈ d -> 0 <= times.
Proof. intros [_ H] Hin. destruct (H face times Hin). lia. Qed.

(** C3. A pouch built from [0 <= count <= 1000] dice with [faces >= 1]
    holds [count] dice in all, kept and dropped taken together, and no
    per-face count is negative; the same is true after [drop_lowest n] for
    every [n >= 0]. *)
Theorem pouch_counts_add_up (count faces : Z) (g : RNG) :
  0 <= count <= 1000 -> 1 <= faces ->
  exists dp g',
    DicePouch_init count faces g = Ok (dp, g')
    /\ counts_add_up count dp
    /\ forall n, 0 <= n ->
         exists dp', drop_lowest dp n = Ok dp' /\ counts_add_up count dp'.
Proof.
  intros Hc Hf.
  destruct (DicePouch_init_spec count faces g) as (dp & g' & Hinit & _ & _ & Hdr & Hwf & Htot);
    [lia | lia |].
  exists dp, g'. split; [exact Hinit|]. split.
  - unfold counts_add_up. rewrite Hdr, Htot. split; [unfold total; simpl; lia|].
    split; [intros face times H; exact (rolled_wf_nonneg faces _ face times Hwf H)
           | intros ? ? H; by apply elem_of_nil in H].
  - intros n Hn.
    destruct (drop_lowest_spec dp faces n Hwf Hdr Hn)
      as (dp' & Hdrop & _ & _ & Hk & Hd & Htk & Htd & _).
    exists dp'. split; [exact Hdrop|]. unfold counts_add_up.
    split; [lia|].
    split; intros face times H;
      [exact (rolled_wf_nonneg faces _ face times Hk H)
      | exact (rolled_wf_nonneg faces _ face times Hd H)].
Qed.

Lemma pouch_counts_add_up_witness :
  exists dp g',
    DicePouch_init 5 6 sample_supply = Ok (dp, g')
    /\ counts_add_up 5 dp
    /\ forall n, 0 <= n ->
         exists dp', drop_lowest dp n = Ok dp' /\ counts_add_up 5 dp'.
Proof. apply (pouch_counts_add_up 5 6); lia. Defined.

(** C4. For [0 <= n <= count], [drop_lowest n] moves exactly [n] dice from
    kept to dropped: kept holds [count - n] dice and dropped holds [n], face
    by face the kept and dropped counts add up to the count rolled, and every
    dropped face is at most every face still kept; the faces dropped are the
    first ones of the rolled faces in ascending order. *)
Theorem drop_lowest_moves_lowest (count faces n : Z) (g : RNG) :
  1 <= faces -> 0 <= n <= count ->
  exists dp g',
    DicePouch_init count faces g = Ok (dp, g')
    /\ exists dp',
         drop_lowest dp n = Ok dp'
         /\ total (dice dp') = count - n
         /\ total (dropped dp') = n
         /\ (forall face, dict_get_default (dice dp') face 0
                          + dict_get_default (dropped dp') face 0
                          = dict_get_default (dice dp) face 0)
         /\ (forall low high,
               low ∈ keys (dropped dp') -> high ∈ keys (dice dp') -> low <= high)
         /\ keys (dropped dp') `prefix_of` keys (sorted_items (dice dp))
         /\ StronglySorted Z.le (keys (sorted_items (dice dp))).
Proof.
  intros Hf Hn.
  destruct (DicePouch_init_spec count faces g) as (dp & g' & Hinit & _ & _ & Hdr & Hwf & Htot);
    [lia | lia |].
  exists dp, g'. split; [exact Hinit|].
  destruct (drop_lowest_spec dp faces n Hwf Hdr)
    as (dp' & Hdrop & _ & _ & _ & _ & Htk & Htd & Hmove & Hord & Hpre & _); [lia|].
  exists dp'. split; [exact Hdrop|].
  split; [lia|]. split; [lia|]. split; [exact Hmove|]. split; [exact Hord|].
  split; [exact Hpre | apply sorted_items_sorted].
Qed.

Lemma drop_lowest_moves_lowest_witness :
  exists dp g',
    DicePouch_init 5 6 sample_supply = Ok (dp, g')
    /\ exists dp',
         drop_lowest dp 2 = Ok dp'
         /\ total (dice dp') = 5 - 2
         /\ total (dropped dp') = 2
         /\ (forall face, dict_get_default (dice dp') face 0
                          + dict_get_default (dropped dp') face 0
                          = dict_get_default (dice dp) face 0)
         /\ (forall low high,
               low ∈ keys (dropped dp') -> high ∈ keys (dice dp') -> low <= high)
         /\ keys (dropped dp') `prefix_of` keys (sorted_items (dice dp))
         /\ StronglySorted Z.le (keys (sorted_items (dice dp))).
Proof. apply (drop_lowest_moves_lowest 5 6 2); lia. Defined.

(** [_roll_dice] once the count and the faces have been read and accepted:
    the pouch is built, then the drop request, if any, is served. *)
Lemma _roll_dice_accepted (m : Match) (g : RNG) (count faces : Z) :
  int_or_1 (group m "dice_num") = Ok count ->
  int_of_group (group m "dice_type") = Ok faces ->
  1 <= faces -> 0 <= count <= MAX_DICE ->
  _roll_dice m g =
    '(pouch, g') ← DicePouch_init count faces g;
    match truthy (group m "drop_lowest") with
    | Some s =>
        drop ← py_int s;
        if 0 <=? drop then pouch' ← drop_lowest pouch drop; Ok (pouch', g')
        else Raise (Dice (UnableToDropDiceError drop count))
    | None => Ok (pouch, g')
    end.
Proof.
  intros Hnum Htype Hf Hc. unfold _roll_dice. rewrite Hnum, Htype. simpl.
  destruct (Z.leb_spec faces 0); [lia|].
  destruct (Z.ltb_spec count 0); [lia|].
  destruct (Z.ltb_spec MAX_DICE count); [lia|]. done.
Qed.

(** C6. Asking a pouch of [count] dice to drop [n > count] raises nothing
    and moves every die to dropped; [_roll_dice] raises
    [UnableToDropDiceError] for a negative drop count only. *)
Theorem drop_beyond_count_drains (count faces n : Z) (g : RNG) :
  0 <= count -> 1 <= faces -> count < n ->
  (exists dp g',
     DicePouch_init count faces g = Ok (dp, g')
     /\ exists dp',
          drop_lowest dp n = Ok dp'
          /\ dice dp' = []
          /\ dropped dp' = sorted_items (dice dp)
          /\ total (dropped dp') = count)
  /\ (forall m : Match,
        count <= MAX_DICE ->
        int_or_1 (group m "dice_num") = Ok count ->
        int_of_group (group m "dice_type") = Ok faces ->
        (exists s, truthy (group m "drop_lowest") = Some s /\ py_int s = Ok n) ->
        exists dp' g',
          _roll_dice m g = Ok (dp', g')
          /\ dice dp' = [] /\ total (dropped dp') = count)
  /\ (forall (m : Match) (g0 : RNG) (d t : Z),
        _roll_dice m g0 = Raise (Dice (UnableToDropDiceError d t)) -> d < 0).
Proof.
  intros Hc Hf Hn.
  destruct (DicePouch_init_spec count faces g Hc Hf)
    as (dp & g' & Hinit & _ & _ & Hdr & Hwf & Htot).
  destruct (drop_lowest_spec dp faces n Hwf Hdr)
    as (dp' & Hdrop & _ & _ & _ & _ & _ & Htd & _ & _ & _ & Hdrain); [lia|].
  destruct Hdrain as [Hkept Hdropped]; [lia|].
  split; [|split].
  - exists dp, g'. split; [exact Hinit|]. exists dp'.
    split; [exact Hdrop|]. split; [exact Hkept|]. split; [exact Hdropped | lia].
  - intros m Hmax Hnum Htype (s & Hs & Hint).
    rewrite (_roll_dice_accepted m g count faces Hnum Htype Hf) by lia.
    rewrite Hinit. simpl. rewrite Hs, Hint. simpl.
    destruct (Z.leb_spec 0 n); [|lia]. rewrite Hdrop. simpl.
    exists dp', g'. split; [done|]. split; [done | lia].
  - intros m g0 d t. unfold _roll_dice.
    destruct (int_or_1 _) as [dice_num|e1] eqn:E1; simpl.
    2:{ intros [= ->]. by apply int_or_1_raises in E1. }
    destruct (int_of_group _) as [dice_type|e2] eqn:E2; simpl.
    2:{ intros [= ->]. by apply int_of_group_raises in E2 as [|]. }
    destruct (dice_type <=? 0); [done|].
    destruct (dice_num <? 0); [done|].
    destruct (MAX_DICE <? dice_num); [done|].
    destruct (DicePouch_init dice_num dice_type g0) as [[pouch g1]|e3] eqn:E3; simpl.
    2:{ intros [= ->]. by apply DicePouch_init_raises in E3. }
    destruct (truthy _) as [s|]; [|done].
    destruct (py_int s) as [drop|e4] eqn:E4; simpl.
    2:{ intros [= ->]. by apply py_int_raises in E4. }
    destruct (Z.leb_spec 0 drop).
    + destruct (drop_lowest pouch drop) as [pouch'|e5] eqn:E5; simpl; [done|].
      intros [= ->]. apply drop_lowest_raises in E5 as [k Hk]. done.
    + intros [= <- _]. done.
Qed.

Lemma drop_beyond_count_drains_witness :
  exists dp' g',
    _roll_dice (mkMatch "3d6v5" [("drop_lowest", "5"); ("dice_type", "6"); ("dice_num", "3")])
               sample_supply = Ok (dp', g')
    /\ dice dp' = [] /\ total (dropped dp') = 3.
Proof.
  refine (proj1 (proj2 (drop_beyond_count_drains 3 6 5 sample_supply _ _ _))
            _ _ _ _ _); try lia; try reflexivity.
  - unfold MAX_DICE. lia.
  - exists "5"%string. split; reflexivity.
Defined.

(** C5. [_roll_dice] on a token whose count and faces read as [count] and
    [faces]: [InvalidDiceFacesError faces] when [faces <= 0], whatever the
    count; otherwise [NegativeDiceCountError count] when [count < 0] and
    [TooManyDiceError count 1000] when [count > 1000]; in every other case
    the pouch is built, holding [count] dice with faces in [[1, faces]], and
    is returned (after the drop, if one is requested and not negative). *)
Theorem roll_dice_validation (m : Match) (g : RNG) (count faces : Z) :
  int_or_1 (group m "dice_num") = Ok count ->
  int_of_group (group m "dice_type") = Ok faces ->
  (faces <= 0 -> _roll_dice m g = Raise (Dice (InvalidDiceFacesError faces)))
  /\ (1 <= faces -> count < 0 ->
        _roll_dice m g = Raise (Dice (NegativeDiceCountError count)))
  /\ (1 <= faces -> 1000 < count ->
        _roll_dice m g = Raise (Dice (TooManyDiceError count 1000)))
  /\ (1 <= faces -> 0 <= count <= 1000 ->
        exists dp g',
          DicePouch_init count faces g = Ok (dp, g')
          /\ total (dice dp) = count /\ dropped dp = []
          /\ (forall face times,
                (face, times) ∈ dice dp -> 1 <= face <= faces /\ 0 < times)
          /\ match truthy (group m "drop_lowest") with
             | None => _roll_dice m g = Ok (dp, g')
             | Some s =>
                 forall drop, py_int s = Ok drop ->
                   (0 <= drop ->
                      exists dp', drop_lowest dp drop = Ok dp'
                                  /\ _roll_dice m g = Ok (dp', g'))
                   /\ (drop < 0 ->
                         _roll_dice m g
                         = Raise (Dice (UnableToDropDiceError drop count)))
             end).
Proof.
  intros Hnum Htype.
  split; [|split; [|split]].
  - intros Hf. unfold _roll_dice. rewrite Hnum, Htype. simpl.
    destruct (Z.leb_spec faces 0); [done | lia].
  - intros Hf Hc. unfold _roll_dice. rewrite Hnum, Htype. simpl.
    destruct (Z.leb_spec faces 0); [lia|].
    destruct (Z.ltb_spec count 0); [done | lia].
  - intros Hf Hc. unfold _roll_dice. rewrite Hnum, Htype. simpl.
    destruct (Z.leb_spec faces 0); [lia|].
    destruct (Z.ltb_spec count 0); [lia|].
    unfold MAX_DICE. destruct (Z.ltb_spec 1000 count); [done | lia].
  - intros Hf Hc.
    destruct (DicePouch_init_spec count faces g) as (dp & g' & Hinit & _ & _ & Hdr & Hwf & Htot);
      [lia | lia |].
    exists dp, g'. split; [exact Hinit|]. split; [exact Htot|]. split; [exact Hdr|].
    split; [apply Hwf|].
    rewrite (_roll_dice_accepted m g count faces Hnum Htype Hf) by (unfold MAX_DICE; lia).
    rewrite Hinit. simpl.
    destruct (truthy _) as [s|]; [|done].
    intros drop ->. simpl. split.
    + intros Hd. destruct (Z.leb_spec 0 drop); [|lia].
      destruct (drop_lowest_spec dp faces drop Hwf Hdr Hd) as (dp' & Hdrop & _).
      exists dp'. split; [exact Hdrop|]. rewrite Hdrop. done.
    + intros Hd. destruct (Z.leb_spec 0 drop); [lia | done].
Qed.

Lemma roll_dice_validation_witness :
  let g := sample_supply in
  _roll_dice (mkMatch "2d0" [("dice_type", "0"); ("dice_num", "2")]) g
    = Raise (Dice (InvalidDiceFacesError 0))
  /\ _roll_dice (mkMatch "-1d-3" [("dice_type", "-3"); ("dice_num", "-1")]) g
    = Raise (Dice (InvalidDiceFacesError (-3)))
  /\ _roll_dice (mkMatch "-1d6" [("dice_type", "6"); ("dice_num", "-1")]) g
    = Raise (Dice (NegativeDiceCountError (-1)))
  /\ _roll_dice (mkMatch "1001d6" [("dice_type", "6"); ("dice_num", "1001")]) g
    = Raise (Dice (TooManyDiceError 1001 1000)).
Proof.
  intros g. split; [|split; [|split]].
  - apply (roll_dice_validation
             (mkMatch "2d0" [("dice_type", "0"); ("dice_num", "2")])
             g 2 0 eq_refl eq_refl). lia.
  - apply (roll_dice_validation
             (mkMatch "-1d-3" [("dice_type", "-3"); ("dice_num", "-1")])
             g (-1) (-3) eq_refl eq_refl). lia.
  - apply (roll_dice_validation
             (mkMatch "-1d6" [("dice_type", "6"); ("dice_num", "-1")])
             g (-1) 6 eq_refl eq_refl); lia.
  - apply (roll_dice_validation
             (mkMatch "1001d6" [("dice_type", "6"); ("dice_num", "1001")])
             g 1001 6 eq_refl eq_refl); lia.
Defined.

(** ** No empty face group (C10) *)

Lemma pretty_N_go_nonempty (x : N) (s : string) :
  s <> EmptyString -> pretty_N_go x s <> EmptyString.
Proof.
  revert s. induction (N.lt_wf_0 x) as [x _ IH]; intros s Hs.
  assert (x = 0 \/ 0 < x)%N as [->|Hx] by lia.
  - by rewrite pretty_N_go_0.
  - rewrite pretty_N_go_step by done. apply IH; [by apply N.div_lt | done].
Qed.

Lemma pretty_Z_nonempty (z : Z) : pretty z <> EmptyString.
Proof.
  destruct z as [|p|p]; [done| |done].
  unfold pretty, pretty_Z, pretty, pretty_positive, pretty, pretty_N.
  case_decide; [done|]. rewrite pretty_N_go_step by lia.
  by apply pretty_N_go_nonempty.
Qed.

Lemma rolled_wf_no_empty_group (ty : Z) (d : dict) : rolled_wf ty d -> no_empty_group d.
Proof.
  intros [_ Hall]. split; [intros face times H; by apply (Hall face times)|].
  split.
  - unfold simple_groups. apply Forall_map, Forall_forall. intros [face times] Hin.
    destruct (Hall face times Hin) as [_ Hpos].
    destruct (Z.to_nat times) as [|k] eqn:E; [lia|]. simpl.
    pose proof (pretty_Z_nonempty face) as Hne.
    destruct (repeat (pretty face) k); [done|].
    destruct (pretty face); [done | discriminate].
  - unfold compressed_groups. apply Forall_map, Forall_forall. intros [face times] Hin.
    destruct (Hall face times Hin) as [_ Hpos]. exists face, times. done.
Qed.

(** C10. After construction and after [drop_lowest n] with [n >= 0], every
    face that is a key of the kept dictionary has a strictly positive count,
    so that neither rendering shows an empty group; the same holds for the
    dropped dictionary. *)
Theorem kept_groups_never_empty (count faces : Z) (g : RNG) :
  0 <= count -> 1 <= faces ->
  exists dp g',
    DicePouch_init count faces g = Ok (dp, g')
    /\ no_empty_group (dice dp)
    /\ forall n, 0 <= n ->
         exists dp', drop_lowest dp n = Ok dp'
           /\ no_empty_group (dice dp') /\ no_empty_group (dropped dp').
Proof.
  intros Hc Hf.
  destruct (DicePouch_init_spec count faces g Hc Hf)
    as (dp & g' & Hinit & _ & _ & Hdr & Hwf & _).
  exists dp, g'. split; [exact Hinit|].
  split; [by eapply rolled_wf_no_empty_group|].
  intros n Hn.
  destruct (drop_lowest_spec dp faces n Hwf Hdr Hn) as (dp' & Hdrop & _ & _ & Hk & Hd & _).
  exists dp'. split; [exact Hdrop|]. split; by eapply rolled_wf_no_empty_group.
Qed.

Lemma kept_groups_never_empty_witness :
  exists dp g',
    DicePouch_init 12 6 sample_supply = Ok (dp, g')
    /\ no_empty_group (dice dp)
    /\ forall n, 0 <= n ->
         exists dp', drop_lowest dp n = Ok dp'
           /\ no_empty_group (dice dp') /\ no_empty_group (dropped dp').
Proof. apply (kept_groups_never_empty 12 6); lia. Defined.

(** ** The roll command: comments, tokens and the template (C7, C8, C9) *)

Lemma split_first_app (pre post : string) :
  has_char "#" pre = false -> split_first "#" (pre +:+ String "#" post) = pre.
Proof.
  induction pre as [|c pre IH]; simpl; [done|].
  destruct (Ascii.eqb c "#"); simpl; [done|].
  intros H. by rewrite IH.
Qed.

(** C7, as the code has it. When the argument holds a ["#"], the text from
    the first ["#"] on is the comment and is discarded: dice tokens are
    looked for in the (stripped) text before it, whatever follows. *)
Theorem comment_after_hash_is_discarded (pre post : string) :
  has_char "#" pre = false ->
  arg_str_raw_of (pre +:+ String "#" post) = strip pre
  /\ dice_expressions_of (arg_str_raw_of (pre +:+ String "#" post))
     = dice_expressions_of (strip pre).
Proof.
  intros H. unfold arg_str_raw_of. by rewrite split_first_app.
Qed.

Lemma comment_after_hash_is_discarded_witness :
  arg_str_raw_of ("2d6 " +:+ String "#" " 3d8") = strip "2d6 "
  /\ dice_expressions_of (arg_str_raw_of ("2d6 " +:+ String "#" " 3d8"))
     = dice_expressions_of (strip "2d6 ").
Proof. apply (comment_after_hash_is_discarded "2d6 " " 3d8"). reflexivity. Defined.

(** C7 as stated fails: on ["2d6#3d8"] the token found is the one before
    the ["#"], not the one after it. *)
Lemma comment_before_hash_counterexample :
  ~ (forall pre post : string,
       has_char "#" pre = false ->
       dice_expressions_of (arg_str_raw_of (pre +:+ String "#" post))
       = dice_expressions_of (strip post)).
Proof.
  intros H. specialize (H "2d6" "3d8" eq_refl). vm_compute in H. discriminate H.
Qed.

(** C8 as stated fails: the template of ["2d6+3"] is ["%s+3"]; no
    parentheses are put around the placeholder. *)
Lemma template_2d6_counterexample :
  ~ (map (fun m => (group m "dice_num", group m "dice_type", group m "drop_lowest"))
         (dice_expressions_of (arg_str_raw_of "2d6+3"))
     = [(Some "2", Some "6", None)]
     /\ arg_str_of (arg_str_raw_of "2d6+3") = "(%s)+3").
Proof. intros [_ H]. vm_compute in H. discriminate H. Qed.

(** C8, as the code has it. ["2d6+3"] holds one dice token, with count
    ["2"], faces ["6"] and no drop; its template is ["%s+3"]; the parentheses
    come with the value put in the placeholder, so that the text evaluated is
    ["(S)+3"] for the sum [S] of the pouch of 2 six-sided dice. *)
Theorem parse_2d6_plus_3 (g : RNG) :
  arg_str_raw_of "2d6+3" = "2d6+3"
  /\ map (fun m => (group m "dice_num", group m "dice_type", group m "drop_lowest"))
         (dice_expressions_of "2d6+3")
     = [(Some "2", Some "6", None)]
  /\ arg_str_of "2d6+3" = "%s+3"
  /\ exists dp,
       roll (Some "2d6+3") g
       = Rolled "2d6+3" "%s+3" [dp]
           (("(" +:+ pretty (get_sum dp) +:+ ")") +:+ "+3")
           (get_simple_string dp +:+ "+3")
       /\ num dp = 2 /\ type dp = 6 /\ total (dice dp) = 2 /\ dropped dp = [].
Proof.
  split; [reflexivity|]. split; [reflexivity|]. split; [reflexivity|].
  set (m := mkMatch "2d6" [("dice_type", "6"); ("dice_num", "2")]).
  assert (Hexpr : dice_expressions_of "2d6+3" = [m]) by reflexivity.
  assert (Hraw : arg_str_raw_of "2d6+3" = "2d6+3") by reflexivity.
  assert (Harg : arg_str_of "2d6+3" = "%s+3") by reflexivity.
  destruct (DicePouch_init_spec 2 6 g) as (dp & g' & Hinit & Hnum & Hty & Hdr & _ & Htot);
    [lia | lia |].
  assert (Hroll : _roll_dice m g = Ok (dp, g')).
  { rewrite (_roll_dice_accepted m g 2 6 eq_refl eq_refl) by (unfold MAX_DICE; lia).
    rewrite Hinit. reflexivity. }
  exists dp. split; [|done].
  unfold roll. rewrite Hraw, Harg, Hexpr.
  unfold roll_all. rewrite Hroll. simpl.
  unfold _get_pretty_str. rewrite Hnum. reflexivity.
Qed.

(** C9. The grammar accepts a token whose count is a bare ["-"]: on
    ["-d6"] the count text is ["-"], [int] raises [ValueError] on it, and
    [roll], whose handler catches [DiceError] only, lets it through. *)
Theorem bare_minus_count_escapes_handler :
  exists (text : string) (m : Match),
    dice_expressions_of (arg_str_raw_of text) = [m]
    /\ group m "dice_num" = Some "-"
    /\ py_int "-" = Raise ValueError
    /\ forall g : RNG,
         _roll_dice m g = Raise ValueError
         /\ roll (Some text) g = Uncaught ValueError.
Proof.
  exists "-d6", (mkMatch "-d6" [("dice_type", "6"); ("dice_num", "-")]).
  split; [reflexivity|]. split; [reflexivity|]. split; [reflexivity|].
  intros g. split; reflexivity.
Qed.

(** ** The weekly high score table (C1, C2) *)

Section highscores.
Implicit Types (db : table) (channel nick : string) (score set_at now clock : Z).

Lemma purge_lookup_Some db now clock key score set_at :
  _purge_expired db (Some now) clock !! key = Some (score, set_at)
  <-> db !! key = Some (score, set_at) /\ now - WEEK_SECONDS <= set_at.
Proof.
  unfold _purge_expired. rewrite map_lookup_filter_Some. simpl.
  split; (intros [H1 H2]; split; [done | lia]).
Qed.

Lemma purge_lookup_None db now clock key :
  _purge_expired db (Some now) clock !! key = None
  <-> db !! key = None
      \/ exists score set_at,
           db !! key = Some (score, set_at) /\ set_at < now - WEEK_SECONDS.
Proof.
  unfold _purge_expired. rewrite map_lookup_filter_None. split.
  - intros [H|H]; [by left|].
    destruct (db !! key) as [[score set_at]|] eqn:E; [|by left].
    right. exists score, set_at. split; [done|].
    specialize (H _ eq_refl). simpl in H. lia.
  - intros [H|(score & set_at & H & Hlt)]; [by left|].
    right. intros x Hx. rewrite H in Hx. injection Hx as <-. simpl. lia.
Qed.

Lemma purge_all_valid db now clock :
  (forall key score set_at,
      db !! key = Some (score, set_at) -> now - WEEK_SECONDS <= set_at) ->
  _purge_expired db (Some now) clock = db.
Proof.
  intros H. unfold _purge_expired. apply map_filter_id.
  intros key [score set_at] Hrow. simpl. specialize (H _ _ _ Hrow). lia.
Qed.

(** [_update_highscore] leaves the table the purge leaves: the row it
    writes does not last. *)
Lemma update_highscore_table db channel nick score now clock :
  fst (_update_highscore db channel nick score (Some now) clock)
  = _purge_expired db (Some now) clock.
Proof.
  unfold _update_highscore, execute_replace. simpl.
  destruct (_purge_expired db (Some now) clock !! (channel, nick)) as [[p t]|];
    [|done].
  destruct (now - WEEK_SECONDS <=? t); [|done]. by destruct (p <? score).
Qed.

(** [_update_highscore] when the caller's row is valid. *)
Lemma update_prev_valid db channel nick score now clock s t :
  db !! (channel, nick) = Some (s, t) -> now - WEEK_SECONDS <= t ->
  _update_highscore db channel nick score (Some now) clock
  = (_purge_expired db (Some now) clock, Some s).
Proof.
  intros Hrow Hvalid. unfold _update_highscore, execute_replace. simpl.
  assert (_purge_expired db (Some now) clock !! (channel, nick) = Some (s, t)) as ->
    by by apply purge_lookup_Some.
  destruct (Z.leb_spec (now - WEEK_SECONDS) t); [|lia]. by destruct (s <? score).
Qed.

(** [_update_highscore] when the purge leaves no row for the caller. *)
Lemma update_prev_absent db channel nick score now clock :
  _purge_expired db (Some now) clock !! (channel, nick) = None ->
  _update_highscore db channel nick score (Some now) clock
  = (_purge_expired db (Some now) clock, None).
Proof. intros H. unfold _update_highscore, execute_replace. simpl. by rewrite H. Qed.

End highscores.

(** C1 fails on the code. In the three updates of the example, from the
    empty table, the row that the first update writes does not last: the
    table is empty again for the second update, which returns [None] where
    the example has 10, and so for the third; no row is ever stored. The
    example has [(10, T)] stored after the first update, 10 returned by the
    second and the third, and [(15, T + 20)] stored at the end. *)
Theorem update_highscore_write_is_lost (clock : Z) :
  let T := 1700000000 in
  let r1 := _update_highscore ∅ "#a" "bob" 10 (Some T) clock in
  let r2 := _update_highscore (fst r1) "#a" "bob" 5 (Some (T + 10)) clock in
  let r3 := _update_highscore (fst r2) "#a" "bob" 15 (Some (T + 20)) clock in
  r1 = (∅, None) /\ r2 = (∅, None) /\ r3 = (∅, None)
  /\ r1 <> ({[("#a"%string, "bob"%string) := (10, T)]}, None)
  /\ snd r2 <> Some 10.
Proof.
  intros T r1 r2 r3.
  assert (Hempty : forall score now,
            _update_highscore ∅ "#a" "bob" score (Some now) clock = (∅, None)).
  { intros score now.
    rewrite update_prev_absent by (apply purge_lookup_None; left; apply lookup_empty).
    unfold _purge_expired. by rewrite map_filter_empty. }
  assert (r1 = (∅, None)) as H1 by apply Hempty.
  assert (r2 = (∅, None)) as H2 by (subst r2; rewrite H1; apply Hempty).
  assert (r3 = (∅, None)) as H3 by (subst r3; rewrite H2; apply Hempty).
  split; [done|]. split; [done|]. split; [done|]. split.
  - rewrite H1. intros [=].
  - by rewrite H2.
Qed.

(** *** Validity of an entry *)







(** ** The embedding at work on concrete inputs *)

(** Every outcome in the range is drawn for some supply. *)
Lemma randint_any_outcome (a b x : Z) :
  a <= x <= b -> exists g g', randint a b g = Ok (x, g').
Proof.
  intros Hx. exists (fun _ => x - a). eexists. unfold randint.
  destruct (Z.ltb_spec b a); [lia|].
  rewrite Z.mod_small by lia. do 3 f_equal. lia.
Qed.

Example roll_12d6 :
  fst <$> DicePouch_init 12 6 sample_supply
  = Ok (mkDicePouch 12 6 [(4, 2); (5, 2); (6, 2); (1, 2); (2, 2); (3, 2)] []).
Proof. reflexivity. Qed.

Example roll_12d6_drop_3 :
  ('(dp, _) ← DicePouch_init 12 6 sample_supply; drop_lowest dp 3)
  = Ok (mkDicePouch 12 6 [(4, 2); (5, 2); (6, 2); (2, 1); (3, 2)] [(1, 2); (2, 1)]).
Proof. reflexivity. Qed.

Example render_12d6_drop_3 :
  let dp := mkDicePouch 12 6 [(4, 2); (5, 2); (6, 2); (2, 1); (3, 2)] [(1, 2); (2, 1)] in
  get_simple_string dp = "(4+4+5+5+6+6+2+3+3[+1+1+2])"
  /\ get_compressed_string dp = "(2x4+2x5+2x6+1x2+2x3[+2x1+1x2])"
  /\ get_sum dp = 38.
Proof. repeat split. Qed.

(** The invariants are those of a pouch's life: it is built, then dropped from
    at most once. A second drop on the same face overwrites the dropped count
    of that face, and a die goes missing. *)
Remark drop_lowest_twice_loses_a_die :
  (dp ← fst <$> DicePouch_init 3 6 (fun _ => 0);
   dp1 ← drop_lowest dp 1;
   drop_lowest dp1 1)
  = Ok (mkDicePouch 3 6 [(1, 1)] [(1, 1)]).
Proof. reflexivity. Qed.

Example roll_with_comment :
  roll (Some "3D8v1 + 2 # fire damage") sample_supply
  = Rolled "3D8v1 + 2" "%s + 2"
      [mkDicePouch 3 8 [(4, 1); (3, 1)] [(2, 1)]]
      "(7) + 2" "(4+3[+2]) + 2".
Proof. reflexivity. Qed.

Example roll_nothing :
  roll None sample_supply = Replied "No dice to roll."
  /\ roll (Some "hello") sample_supply
     = Replied "I couldn't find any valid dice expressions.".
Proof. split; reflexivity. Qed.

Example roll_first_error_wins :
  roll (Some "2d6 + 1001d6 + d0") sample_supply
  = Replied "I only have 1000/1001 dice."
  /\ roll (Some "2d6v-1") sample_supply
     = Replied "I can't drop the lowest -1 of 2 dice.".
Proof. split; reflexivity. Qed.

Example format_age_units :
  _format_age 200000 = "2d" /\ _format_age 7300 = "2h"
  /\ _format_age 61 = "1m" /\ _format_age 59 = "59s".
Proof. repeat split. Qed.

Example my_highscore_at_the_boundary :
  let db : table := {[("#a"%string, "bob"%string) := (10, 0)]} in
  snd (my_highscore db "#A" "bob" (7 * 86400)) = "bob: your weekly high is 10 (7d ago)"
  /\ snd (my_highscore db "#A" "bob" (7 * 86400 + 1))
     = "bob: you don't have a weekly high score yet. Roll!"
  /\ snd (_get_channel_highscores db "#a" 10 (7 * 86400)) = [("bob"%string, 10, 0)]
  /\ snd (_get_channel_highscores db "#a" 10 (7 * 86400 + 1)) = [].
Proof. vm_compute. repeat split. Qed.

Example leaderboard_order :
  let db : table :=
    {[("#a"%string, "ann"%string) := (12, 50);
      ("#a"%string, "bob"%string) := (17, 90);
      ("#a"%string, "cy"%string) := (12, 20);
      ("#b"%string, "dee"%string) := (30, 10)]} in
  snd (_get_channel_highscores db "#a" 10 100)
  = [("bob"%string, 17, 90); ("cy"%string, 12, 20); ("ann"%string, 12, 50)]
  /\ snd (_get_channel_highscores db "#a" 2 100)
     = [("bob"%string, 17, 90); ("cy"%string, 12, 20)].
Proof. vm_compute. split; reflexivity. Qed.

(** ** More on the pouch: the sum of the dice *)

#[local] Arguments weighted_total : simpl never.

Lemma weighted_total_cons k v d : weighted_total ((k, v) :: d) = k * v + weighted_total d.
Proof. reflexivity. Qed.

Lemma get_sum_weighted_total (dp : DicePouch) : get_sum dp = weighted_total (dice dp).
Proof.
  unfold get_sum.
  assert (H : forall d acc,
             fold_left (fun result '(face, times) => result + face * times) d acc
             = acc + weighted_total d).
  { induction d as [|[k v] d IH]; intros acc; simpl.
    - unfold weighted_total. simpl. lia.
    - rewrite IH, weighted_total_cons. lia. }
  rewrite H. lia.
Qed.

Lemma weighted_total_set d k v :
  weighted_total (dict_set d k v)
  = weighted_total d - k * dict_get_default d k 0 + k * v.
Proof.
  unfold dict_get_default.
  induction d as [|[k' v'] d IH]; simpl.
  - unfold weighted_total. simpl. lia.
  - destruct (Z.eqb_spec k' k) as [->|]; rewrite !weighted_total_cons; [lia|].
    rewrite IH. lia.
Qed.

Lemma weighted_total_del d k :
  weighted_total (dict_del d k) = weighted_total d - k * dict_get_default d k 0.
Proof.
  unfold dict_get_default.
  induction d as [|[k' v'] d IH]; simpl.
  - unfold weighted_total. simpl. lia.
  - destruct (Z.eqb_spec k' k) as [->|]; rewrite !weighted_total_cons; [lia|].
    rewrite IH. lia.
Qed.

Lemma weighted_total_bounds ty d :
  (forall k v, (k, v) ∈ d -> 1 <= k <= ty /\ 0 < v) ->
  total d <= weighted_total d <= ty * total d.
Proof.
  induction d as [|[k v] d IH]; intros H.
  - unfold total, weighted_total. simpl. lia.
  - rewrite total_cons, weighted_total_cons.
    destruct (H k v (list_elem_of_here _ _)) as [Hk Hv].
    assert (total d <= weighted_total d <= ty * total d) as IH'.
    { apply IH. intros k' v' Hin. apply H. by apply list_elem_of_further. }
    nia.
Qed.

Lemma drop_loop_weighted (l : list (Z * Z)) : forall n kept drp kept' drp',
  NoDup (keys l) ->
  (forall i, i ∈ keys l -> dict_get drp i = None) ->
  drop_loop l n kept drp = Ok (kept', drp') ->
  weighted_total kept' + weighted_total drp' = weighted_total kept + weighted_total drp.
Proof.
  induction l as [|[i c] rest IH]; intros n kept drp kept' drp' Hnd Hfresh; simpl.
  - by intros [= <- <-].
  - rewrite keys_cons in Hnd. apply NoDup_cons in Hnd as [Hi Hnd].
    assert (Hdd : dict_get_default drp i 0 = 0).
    { unfold dict_get_default. rewrite Hfresh; [done | rewrite keys_cons; left]. }
    unfold dict_getitem. destruct (dict_get kept i) as [count|] eqn:Hget; simpl; [|done].
    assert (Hkd : dict_get_default kept i 0 = count).
    { unfold dict_get_default. by rewrite Hget. }
    destruct (n =? 0); [by intros [= <- <-]|].
    destruct (n <? count).
    + intros [= <- <-]. rewrite !weighted_total_set. lia.
    + intros Hrun. apply IH in Hrun; [|done|].
      * rewrite Hrun, !weighted_total_set. lia.
      * intros j Hj. rewrite dict_get_set_ne by (intros ->; contradiction).
        apply Hfresh. rewrite keys_cons. by right.
Qed.

Lemma drop_cleanup_weighted (items : list (Z * Z)) : forall kept,
  weighted_total (drop_cleanup items kept) = weighted_total kept.
Proof.
  induction items as [|[i c] rest IH]; intros kept; simpl; [done|].
  rewrite IH. pose proof (cleanup_test kept i) as Htest.
  destruct ((dict_get_default kept i 0 =? 0) && dict_mem kept i); [|done].
  rewrite weighted_total_del. unfold dict_get_default.
  rewrite (proj1 Htest eq_refl). lia.
Qed.

(** X1. The sum of a freshly built pouch lies between [count] (all ones) and
    [count * faces] (all highest faces). *)
Theorem fresh_pouch_sum_bounds (count faces : Z) (g : RNG) :
  0 <= count -> 1 <= faces ->
  exists dp g',
    DicePouch_init count faces g = Ok (dp, g')
    /\ count <= get_sum dp <= count * faces.
Proof.
  intros Hc Hf.
  destruct (DicePouch_init_spec count faces g Hc Hf)
    as (dp & g' & Hinit & _ & _ & _ & [_ Hall] & Htot).
  exists dp, g'. split; [exact Hinit|].
  rewrite get_sum_weighted_total.
  pose proof (weighted_total_bounds faces (dice dp) Hall). nia.
Qed.

Lemma fresh_pouch_sum_bounds_witness :
  exists dp g',
    DicePouch_init 12 6 sample_supply = Ok (dp, g')
    /\ 12 <= get_sum dp <= 12 * 6.
Proof. apply (fresh_pouch_sum_bounds 12 6); lia. Defined.

(** X2. Dropping takes the dropped dice out of the sum and nothing else: the
    sum afterwards is the sum before less the faces of the dropped dice. With
    [m = min n count] dice dropped, it falls by at least [m] and stays
    between [count - m] and [(count - m) * faces]. *)
Theorem sum_after_drop (count faces n : Z) (g : RNG) :
  0 <= count -> 1 <= faces -> 0 <= n ->
  exists dp g' dp',
    DicePouch_init count faces g = Ok (dp, g')
    /\ drop_lowest dp n = Ok dp'
    /\ get_sum dp' + weighted_total (dropped dp') = get_sum dp
    /\ get_sum dp' <= get_sum dp - Z.min n count
    /\ count - Z.min n count <= get_sum dp' <= (count - Z.min n count) * faces.
Proof.
  intros Hc Hf Hn.
  destruct (DicePouch_init_spec count faces g Hc Hf)
    as (dp & g' & Hinit & _ & _ & Hdr & Hwf & Htot).
  destruct (drop_lowest_spec dp faces n Hwf Hdr Hn)
    as (dp' & Hdrop & _ & _ & [_ Hk] & [_ Hd] & Htk & Htd & _).
  exists dp, g', dp'. split; [exact Hinit|]. split; [exact Hdrop|].
  assert (Hsum : get_sum dp' + weighted_total (dropped dp') = get_sum dp).
  { rewrite !get_sum_weighted_total. revert Hdrop. unfold drop_lowest.
    destruct (drop_loop _ _ _ _) as [[kept drp]|e] eqn:Hloop; simpl; [|done].
    intros [= <-]. simpl. rewrite drop_cleanup_weighted.
    apply drop_loop_weighted in Hloop.
    - rewrite Hloop, Hdr. unfold weighted_total at 2. simpl. lia.
    - unfold keys. rewrite (sorted_items_perm (dice dp)). apply Hwf.
    - by rewrite Hdr. }
  split; [exact Hsum|].
  pose proof (weighted_total_bounds faces (dropped dp') Hd) as Hbd.
  pose proof (weighted_total_bounds faces (dice dp') Hk) as Hbk.
  rewrite get_sum_weighted_total in *. rewrite Htot in *.
  split; [lia | nia].
Qed.

Lemma sum_after_drop_witness :
  exists dp g' dp',
    DicePouch_init 12 6 sample_supply = Ok (dp, g')
    /\ drop_lowest dp 3 = Ok dp'
    /\ get_sum dp' + weighted_total (dropped dp') = get_sum dp
    /\ get_sum dp' <= get_sum dp - Z.min 3 12
    /\ 12 - Z.min 3 12 <= get_sum dp' <= (12 - Z.min 3 12) * 6.
Proof. apply (sum_after_drop 12 6 3); lia. Defined.

(** X3. A request to drop no dice leaves the pouch as it is. *)
Theorem drop_nothing (dp : DicePouch) :
  dropped dp = [] -> drop_lowest dp 0 = Ok dp.
Proof.
  destruct dp as [nm ty d drp]. simpl. intros ->. unfold drop_lowest. simpl.
  assert (H : drop_loop (sorted_items d) 0 d [] = Ok (d, [])).
  { pose proof (sorted_items_perm d) as Hperm.
    destruct (sorted_items d) as [|[i c] rest]; simpl; [done|].
    assert ((i, c) ∈ d) as Hin by (rewrite <- Hperm; left).
    unfold dict_getitem.
    destruct (dict_get d i) eqn:E; simpl; [done|].
    apply dict_get_None in E. elim E. by eapply elem_keys. }
  rewrite H. done.
Qed.

Lemma drop_nothing_witness :
  drop_lowest (mkDicePouch 3 6 [(4, 2); (1, 1)] []) 0
  = Ok (mkDicePouch 3 6 [(4, 2); (1, 1)] []).
Proof. apply (drop_nothing (mkDicePouch 3 6 [(4, 2); (1, 1)] [])). reflexivity. Defined.

(** ** More on the weekly high score table *)

(** X5. Purging twice is purging once at the later of the two times; in
    particular the purge is idempotent. *)
Theorem purge_expired_composes (db : table) (now1 now2 clock1 clock2 : Z) :
  _purge_expired (_purge_expired db (Some now1) clock1) (Some now2) clock2
  = _purge_expired db (Some (Z.max now1 now2)) clock2
  /\ _purge_expired (_purge_expired db (Some now1) clock1) (Some now1) clock2
     = _purge_expired db (Some now1) clock1.
Proof.
  split; apply map_eq; intros key; apply option_eq; intros [score set_at];
    rewrite !purge_lookup_Some; (split; [intros [[H1 H2] H3] | intros [H1 H2]]);
    repeat split; try done; lia.
Qed.

(** The row [my_highscore] reports is the row the purge leaves. *)
Lemma my_highscore_row_purged (db : table) (channel nick : string) (clock : Z) :
  my_highscore_row db channel nick clock
  = _purge_expired db (Some clock) clock !! (channel, nick).
Proof.
  unfold my_highscore_row.
  destruct (_purge_expired db (Some clock) clock !! (channel, nick))
    as [[score set_at]|] eqn:E; [|done].
  apply purge_lookup_Some in E as [_ Hvalid].
  destruct (Z.ltb_spec set_at (clock - WEEK_SECONDS)); [lia | done].
Qed.

(** The score [_update_highscore] returns is the score of the row the purge
    leaves for the user. *)
Lemma update_highscore_prev (db : table) (channel nick : string)
    (score now clock : Z) :
  snd (_update_highscore db channel nick score (Some now) clock)
  = fst <$> _purge_expired db (Some now) clock !! (channel, nick).
Proof.
  destruct (_purge_expired db (Some now) clock !! (channel, nick))
    as [[p t]|] eqn:E.
  - apply purge_lookup_Some in E as [Hrow Hvalid].
    by rewrite (update_prev_valid db channel nick score now clock p t Hrow Hvalid).
  - by rewrite (update_prev_absent db channel nick score now clock E).
Qed.

(** X6. [_update_highscore] and [my_highscore] agree on the score that
    counts: the previous score that an update returns is the score that
    [my_highscore] reports at the same time, [None] when it reports none. An
    update leaves the rows of the other users as the purge leaves them, and
    no row older than a week remains. *)
Theorem update_agrees_with_lookup (db : table) (channel nick : string)
    (score now clock : Z) :
  forallb sqlite_int [score; now; now - WEEK_SECONDS] = true ->
  let r := _update_highscore db channel nick score (Some now) clock in
  snd r = fst <$> my_highscore_row db channel nick now
  /\ (forall key,
        key <> (channel, nick) ->
        fst r !! key = _purge_expired db (Some now) clock !! key)
  /\ (forall key s t, fst r !! key = Some (s, t) -> now - WEEK_SECONDS <= t).
Proof.
  intros _ r. subst r. rewrite update_highscore_table, update_highscore_prev.
  split; [|split].
  - rewrite my_highscore_row_purged. unfold _purge_expired. done.
  - done.
  - intros key s t H. by apply purge_lookup_Some in H as [_ H].
Qed.

Lemma update_agrees_with_lookup_witness :
  let db : table := {[("#a"%string, "bob"%string) := (10, 100)]} in
  snd (_update_highscore db "#a" "bob" 15 (Some 200) 0)
  = fst <$> my_highscore_row db "#a" "bob" 200.
Proof.
  intros db. apply (update_agrees_with_lookup db "#a" "bob" 15 200 0). reflexivity.
Defined.

(** ** The leaderboard and the high score commands *)

Lemma insert_sorted_sorted {A} (le : A -> A -> bool) (x : A) (l : list A) :
  (forall a b, le a b = false -> le b a = true) ->
  (forall a b c, le a b = true -> le b c = true -> le a c = true) ->
  StronglySorted (fun a b => le a b = true) l ->
  StronglySorted (fun a b => le a b = true) (insert_sorted le x l).
Proof.
  intros Htotal Htrans. induction l as [|y l IH]; simpl; intros Hs.
  - repeat constructor.
  - apply StronglySorted_inv in Hs as [Hs Hall].
    destruct (le x y) eqn:E.
    + constructor; [by constructor|]. constructor; [done|].
      eapply Forall_impl; [exact Hall|]. simpl. eauto.
    + constructor; [by apply IH|].
      rewrite (insert_sorted_perm le x l). constructor; [by apply Htotal | done].
Qed.

Lemma sort_by_sorted {A} (le : A -> A -> bool) (l : list A) :
  (forall a b, le a b = false -> le b a = true) ->
  (forall a b c, le a b = true -> le b c = true -> le a c = true) ->
  StronglySorted (fun a b => le a b = true) (sort_by le l).
Proof.
  intros Htotal Htrans. unfold sort_by.
  induction l as [|x l IH]; simpl; [constructor|]. by apply insert_sorted_sorted.
Qed.

Lemma StronglySorted_take {A} (R : A -> A -> Prop) (n : nat) (l : list A) :
  StronglySorted R l -> StronglySorted R (take n l).
Proof.
  revert n. induction l as [|x l IH]; intros [|n] Hs; simpl; try constructor.
  - apply IH. by apply StronglySorted_inv in Hs as [Hs _].
  - apply StronglySorted_inv in Hs as [_ Hall].
    eapply Forall_forall. intros y Hy. rewrite Forall_forall in Hall. apply Hall.
    eapply elem_of_sublist; [exact Hy | apply sublist_take].
Qed.

Lemma row_before_total r1 r2 : row_before r1 r2 = false -> row_before r2 r1 = true.
Proof.
  destruct r1 as [[n1 s1] t1], r2 as [[n2 s2] t2]. unfold row_before.
  destruct (Z.ltb_spec s2 s1), (Z.ltb_spec s1 s2), (Z.eqb_spec s1 s2),
    (Z.eqb_spec s2 s1), (Z.leb_spec t1 t2), (Z.leb_spec t2 t1); simpl; try done; lia.
Qed.

Lemma row_before_trans r1 r2 r3 :
  row_before r1 r2 = true -> row_before r2 r3 = true -> row_before r1 r3 = true.
Proof.
  destruct r1 as [[n1 s1] t1], r2 as [[n2 s2] t2], r3 as [[n3 s3] t3].
  unfold row_before.
  destruct (Z.ltb_spec s2 s1), (Z.ltb_spec s3 s2), (Z.ltb_spec s3 s1),
    (Z.eqb_spec s1 s2), (Z.eqb_spec s2 s3), (Z.eqb_spec s1 s3),
    (Z.leb_spec t1 t2), (Z.leb_spec t2 t3), (Z.leb_spec t1 t3);
    simpl; try done; lia.
Qed.

Lemma elem_sql_limit_incl {A} (limit : Z) (rows : list A) (x : A) :
  x ∈ sql_limit limit rows -> x ∈ rows.
Proof.
  unfold sql_limit. destruct (limit <? 0); [done|].
  intros H. eapply elem_of_sublist; [exact H | apply sublist_take].
Qed.

(** The rows selected for a channel, before sorting and cutting. *)
Lemma elem_selected (db : table) (channel : string) (threshold : Z)
    (nick : string) (score set_at : Z) :
  (nick, score, set_at)
    ∈ omap (fun '((ch, nick), (score, set_at)) =>
              if String.eqb ch channel && (threshold <=? set_at)
              then Some (nick, score, set_at) else None)
           (map_to_list db)
  <-> db !! (channel, nick) = Some (score, set_at) /\ threshold <= set_at.
Proof.
  rewrite list_elem_of_omap. split.
  - intros ([[ch nick'] [score' set_at']] & Hin & Hf).
    apply elem_of_map_to_list in Hin.
    destruct (String.eqb_spec ch channel) as [->|]; simpl in Hf; [|done].
    destruct (Z.leb_spec threshold set_at'); [|done].
    injection Hf as -> -> ->. done.
  - intros [Hrow Hvalid]. exists ((channel, nick), (score, set_at)).
    split; [by apply elem_of_map_to_list|].
    rewrite String.eqb_refl. simpl.
    destruct (Z.leb_spec threshold set_at); [done | lia].
Qed.

Lemma selected_nicks_NoDup (channel : string) (threshold : Z)
    (l : list (string * string * (Z * Z))) :
  NoDup l.*1 ->
  NoDup (omap (fun '((ch, nick), (score, set_at)) =>
                 if String.eqb ch channel && (threshold <=? set_at)
                 then Some (nick, score, set_at) else None) l).*1.*1.
Proof.
  induction l as [|[[ch nick] [score set_at]] l IH]; csimpl; [constructor|].
  rewrite NoDup_cons. intros [Hkey Hnd].
  destruct (String.eqb_spec ch channel) as [->|]; simpl; [|by apply IH].
  destruct (threshold <=? set_at); [|by apply IH].
  csimpl. apply NoDup_cons. split; [|by apply IH].
  intros Hin. apply Hkey.
  apply list_elem_of_fmap in Hin as ([nick' score'] & Hnick & Hin). simpl in Hnick.
  apply list_elem_of_fmap in Hin as ([[nick'' score''] set_at''] & Heq & Hin).
  simpl in Heq. simplify_eq.
  apply list_elem_of_omap in Hin as ([[ch2 nick2] [score2 set_at2]] & Hin & Hf).
  destruct (String.eqb_spec ch2 channel) as [->|]; simpl in Hf; [|done].
  destruct (threshold <=? set_at2); [|done].
  simplify_eq.
  apply list_elem_of_fmap. by exists ((channel, nick''), (score'', set_at'')).
Qed.

Lemma length_sql_limit {A} (limit : Z) (rows : list A) :
  0 <= limit -> Z.of_nat (length (sql_limit limit rows)) <= limit.
Proof.
  intros Hl. unfold sql_limit. destruct (Z.ltb_spec limit 0); [lia|].
  rewrite length_take. lia.
Qed.

(** X8. What [_get_channel_highscores] returns: rows of the channel that are
    stored and not older than a week, each user at most once, the higher
    score first and of equal scores the earlier one first, and no more rows
    than the limit. *)
Theorem leaderboard_rows (db : table) (channel : string) (limit now : Z) :
  let rows := snd (_get_channel_highscores db channel limit now) in
  (forall nick score set_at,
      (nick, score, set_at) ∈ rows ->
      db !! (channel, nick) = Some (score, set_at) /\ now - WEEK_SECONDS <= set_at)
  /\ NoDup rows.*1.*1
  /\ StronglySorted ranks_before rows
  /\ (0 <= limit -> Z.of_nat (length rows) <= limit).
Proof.
  unfold _get_channel_highscores, select_highscores. simpl.
  set (rows0 := omap _ (map_to_list (_purge_expired db (Some now) now))).
  split; [|split; [|split]].
  - intros nick score set_at Hin%elem_sql_limit_incl.
    rewrite (sort_by_perm row_before rows0) in Hin.
    apply elem_selected in Hin as [Hrow Hvalid].
    by apply purge_lookup_Some in Hrow as [Hrow _].
  - assert (NoDup (sort_by row_before rows0).*1.*1) as Hnd.
    { rewrite (sort_by_perm row_before rows0).
      apply selected_nicks_NoDup, NoDup_fst_map_to_list. }
    unfold sql_limit. destruct (limit <? 0); [done|].
    rewrite !fmap_take. eapply sublist_NoDup; [exact Hnd | apply sublist_take].
  - assert (StronglySorted ranks_before (sort_by row_before rows0)) as Hs.
    { apply sort_by_sorted; [apply row_before_total | apply row_before_trans]. }
    unfold sql_limit. destruct (limit <? 0); [done|].
    by apply StronglySorted_take.
  - intros Hl. by apply length_sql_limit.
Qed.

(** X10. [_format_age] shows the largest unit with a non-zero value: seconds
    below a minute (and for a negative age), minutes below an hour, hours
    below a day, days from there on; the number shown is a whole number of
    such units, never zero for an age of a minute or more. *)
Theorem format_age_largest_unit (seconds : Z) :
  (seconds < 60 -> _format_age seconds = pretty seconds +:+ "s")
  /\ (60 <= seconds < 3600 ->
        _format_age seconds = pretty (seconds / 60) +:+ "m"
        /\ 1 <= seconds / 60 <= 59)
  /\ (3600 <= seconds < 86400 ->
        _format_age seconds = pretty (seconds / 3600) +:+ "h"
        /\ 1 <= seconds / 3600 <= 23)
  /\ (86400 <= seconds ->
        _format_age seconds = pretty (seconds / 86400) +:+ "d"
        /\ 1 <= seconds / 86400).
Proof.
  unfold _format_age.
  pose proof (Z.div_mod seconds 86400 ltac:(lia)) as Hd.
  pose proof (Z.mod_pos_bound seconds 86400 ltac:(lia)) as Hdb.
  pose proof (Z.div_mod seconds 3600 ltac:(lia)) as Hh.
  pose proof (Z.mod_pos_bound seconds 3600 ltac:(lia)) as Hhb.
  pose proof (Z.div_mod seconds 60 ltac:(lia)) as Hm.
  pose proof (Z.mod_pos_bound seconds 60 ltac:(lia)) as Hmb.
  repeat split;
    destruct (Z.ltb_spec 0 (seconds / 86400)),
             (Z.ltb_spec 0 (seconds / 3600)),
             (Z.ltb_spec 0 (seconds / 60)); try done; lia.
Qed.

Lemma format_age_largest_unit_witness :
  _format_age 7300 = pretty (7300 / 3600) +:+ "h" /\ 1 <= 7300 / 3600 <= 23.
Proof. apply (format_age_largest_unit 7300). lia. Defined.

Lemma sql_limit_nil {A} (limit : Z) (rows : list A) :
  limit <> 0 -> sql_limit limit rows = [] <-> rows = [].
Proof.
  intros Hl. unfold sql_limit. destruct (Z.ltb_spec limit 0); [done|].
  destruct (Z.to_nat limit) as [|n] eqn:E; [lia|].
  destruct rows; simpl; split; done.
Qed.

Lemma select_highscores_nil (db : table) (channel : string) (threshold limit : Z) :
  limit <> 0 ->
  select_highscores db channel threshold limit = []
  <-> forall nick score set_at,
        db !! (channel, nick) = Some (score, set_at) -> set_at < threshold.
Proof.
  intros Hl. unfold select_highscores. rewrite sql_limit_nil by done.
  rewrite <- Permutation_nil_r, (sort_by_perm row_before _), Permutation_nil_r.
  split.
  - intros Hnil nick score set_at Hrow.
    destruct (Z.lt_ge_cases set_at threshold) as [|Hge]; [done|].
    assert ((nick, score, set_at) ∈ ([] : list (string * Z * Z))) as Hin.
    { rewrite <- Hnil. apply elem_selected. split; [done | lia]. }
    by apply elem_of_nil in Hin.
  - intros Hnone. apply elem_of_nil_inv. intros [[nick score] set_at] Hin.
    apply elem_selected in Hin as [Hrow Hvalid].
    specialize (Hnone _ _ _ Hrow). lia.
Qed.

Lemma length_highscore_parts (now idx : Z) (scores : list (string * Z * Z)) :
  length (highscore_parts now idx scores) = length scores.
Proof.
  revert idx. induction scores as [|[[nick score] set_at] rest IH]; intros idx; simpl;
    [done | by rewrite IH].
Qed.

(** The part of rank [idx + k] is made from the row of index [k]. *)
Lemma highscore_parts_lookup (now : Z) (scores : list (string * Z * Z)) :
  forall (idx : Z) (k : nat) (nick : string) (score set_at : Z),
    scores !! k = Some (nick, score, set_at) ->
    highscore_parts now idx scores !! k
    = Some (pretty (idx + Z.of_nat k) +:+ ". " +:+ nick +:+ " " +:+ pretty score
              +:+ " (" +:+ _format_age (now - set_at) +:+ ")").
Proof.
  induction scores as [|[[n s] t] rest IH]; intros idx k nick score set_at; [done|].
  destruct k as [|k]; simpl.
  - intros [= -> -> ->]. by rewrite Z.add_0_r.
  - intros H. rewrite (IH (idx + 1) k nick score set_at H).
    by replace (idx + 1 + Z.of_nat k) with (idx + Z.pos (Pos.of_succ_nat k)) by lia.
Qed.

#[local] Arguments highscore_parts : simpl never.

(** X11. [highscores] in a channel leaves the table purged and answers from
    the ten best rows of the channel, as [_get_channel_highscores] gives
    them: that there are no high scores yet exactly when there is no such
    row, which is when the channel has no row younger than a week and a
    second; otherwise one part per row, in the order of the rows, the part
    of the row of index [k] being its rank [k + 1], its nick, its score and
    its age. *)
Theorem highscores_answer (db : table) (sender : string) (clock clock' : Z) :
  startswith sender "#" = true ->
  let rows := snd (_get_channel_highscores db (lower sender) 10 clock) in
  let answer := snd (highscores db sender clock clock') in
  fst (highscores db sender clock clock') = _purge_expired db (Some clock) clock
  /\ (answer = "No weekly high scores yet. Roll some dice!"
      <-> forall nick score set_at,
            db !! (lower sender, nick) = Some (score, set_at) ->
            set_at < clock - WEEK_SECONDS)
  /\ (answer = "No weekly high scores yet. Roll some dice!" <-> rows = [])
  /\ (rows <> [] ->
      exists parts,
        answer = "Weekly highs: " +:+ String.concat " | " parts
        /\ length parts = length rows
        /\ (1 <= length rows <= 10)%nat
        /\ forall k nick score set_at,
             rows !! k = Some (nick, score, set_at) ->
             parts !! k
             = Some (pretty (Z.of_nat k + 1) +:+ ". " +:+ nick +:+ " "
                       +:+ pretty score
                       +:+ " (" +:+ _format_age (clock' - set_at) +:+ ")")).
Proof.
  intros Hs rows answer. subst rows answer.
  unfold highscores, _get_channel_highscores. rewrite Hs. simpl.
  pose proof (select_highscores_nil (_purge_expired db (Some clock) clock)
                (lower sender) (clock - WEEK_SECONDS) 10 ltac:(lia)) as Hnil.
  pose proof (length_sql_limit 10
                (sort_by row_before
                   (omap (fun '((ch, nick), (score, set_at)) =>
                            if String.eqb ch (lower sender)
                               && (clock - WEEK_SECONDS <=? set_at)
                            then Some (nick, score, set_at) else None)
                         (map_to_list (_purge_expired db (Some clock) clock))))
                ltac:(lia)) as Hlen.
  fold (select_highscores (_purge_expired db (Some clock) clock) (lower sender)
          (clock - WEEK_SECONDS) 10) in Hlen.
  destruct (select_highscores _ _ _ _) as [|row rest] eqn:E; simpl.
  - split; [done|]. split; [|done]. split; [|done].
    intros _ nick score set_at Hrow.
    destruct (Z.lt_ge_cases set_at (clock - WEEK_SECONDS)) as [|Hge]; [done|].
    apply (proj1 Hnil eq_refl nick score set_at).
    apply purge_lookup_Some. split; [done | lia].
  - split; [done|].
    assert (Hother : "Weekly highs: " +:+
                       String.concat " | " (highscore_parts clock' 1 (row :: rest))
                     <> "No weekly high scores yet. Roll some dice!").
    { intros H. unfold String.append in H. discriminate H. }
    split; [|split].
    + split; [done|].
      intros Hnone. assert (row :: rest = []) as Habs; [|done].
      apply Hnil. intros nick score set_at [Hrow _]%purge_lookup_Some. eauto.
    + split; done.
    + intros _. exists (highscore_parts clock' 1 (row :: rest)).
      split; [done|]. split; [apply length_highscore_parts|].
      split; [simpl in Hlen; simpl; lia|].
      intros k nick score set_at Hk.
      rewrite (highscore_parts_lookup clock' (row :: rest) 1 k nick score set_at Hk).
      by rewrite (Z.add_comm 1).
Qed.

Lemma highscores_answer_witness :
  let db : table := {[("#a"%string, "bob"%string) := (10, 0)]} in
  let rows := snd (_get_channel_highscores db (lower "#A") 10 100) in
  let answer := snd (highscores db "#A" 100 101) in
  fst (highscores db "#A" 100 101) = _purge_expired db (Some 100) 100
  /\ (answer = "No weekly high scores yet. Roll some dice!"
      <-> forall nick score set_at,
            db !! (lower "#A", nick) = Some (score, set_at) ->
            set_at < 100 - WEEK_SECONDS)
  /\ (answer = "No weekly high scores yet. Roll some dice!" <-> rows = [])
  /\ (rows <> [] ->
      exists parts,
        answer = "Weekly highs: " +:+ String.concat " | " parts
        /\ length parts = length rows
        /\ (1 <= length rows <= 10)%nat
        /\ forall k nick score set_at,
             rows !! k = Some (nick, score, set_at) ->
             parts !! k
             = Some (pretty (Z.of_nat k + 1) +:+ ". " +:+ nick +:+ " "
                       +:+ pretty score
                       +:+ " (" +:+ _format_age (101 - set_at) +:+ ")")).
Proof.
  intros db. apply (highscores_answer db "#A" 100 101). reflexivity.
Defined.

(** X13. The high score of a roll made in a channel, for a result that
    SQLite can hold: what is said follows the score that [my_highscore]
    reports at the time of the roll. Without one, the roll is announced as a
    new weekly high score; a result above it is announced as beating it; a
    result that does not beat it is not announced, and the table is then
    left as the purge leaves it. The rows of the other users are in every
    case those the purge leaves. *)
Theorem roll_highscore_announced (db : table) (sender nick : string)
    (result clock : Z) :
  startswith sender "#" = true ->
  forallb sqlite_int [result; clock; clock - WEEK_SECONDS] = true ->
  let key := (lower sender, nick) in
  let r := roll_highscore db sender nick result clock in
  (my_highscore_row db (lower sender) nick clock = None ->
     snd r = ["New weekly high score for " +:+ nick +:+ ": " +:+ pretty result +:+ "!"])
  /\ (forall p t,
        my_highscore_row db (lower sender) nick clock = Some (p, t) -> p < result ->
        snd r = [nick +:+ " beats their previous weekly high (" +:+ pretty p
                   +:+ ") with " +:+ pretty result +:+ "!"])
  /\ (forall p t,
        my_highscore_row db (lower sender) nick clock = Some (p, t) -> result <= p ->
        snd r = []
        /\ fst r = _purge_expired db (Some clock) clock
        /\ fst r !! key = Some (p, t))
  /\ (forall key',
        key' <> key ->
        fst r !! key' = _purge_expired db (Some clock) clock !! key').
Proof.
  intros Hs _ key r. subst key r. unfold roll_highscore. rewrite Hs.
  change (_update_highscore db (lower sender) nick result None clock)
    with (_update_highscore db (lower sender) nick result (Some clock) clock).
  rewrite my_highscore_row_purged.
  destruct (_purge_expired db (Some clock) clock !! (lower sender, nick))
    as [[p0 t0]|] eqn:E.
  - pose proof E as E'. apply purge_lookup_Some in E' as [Hdb Hvalid].
    rewrite (update_prev_valid db (lower sender) nick result clock clock p0 t0 Hdb Hvalid).
    destruct (p0 <? result) eqn:Hlt; simpl;
      [apply Z.ltb_lt in Hlt | apply Z.ltb_ge in Hlt].
    + split; [done|]. split; [by intros p t [= <- <-] _|].
      split; [intros p t [= <- <-] ?; lia | done].
    + split; [done|]. split; [intros p t [= <- <-] ?; lia|].
      split; [by intros p t [= <- <-] _ | done].
  - rewrite (update_prev_absent db (lower sender) nick result clock clock E). simpl.
    done.
Qed.

Lemma roll_highscore_announced_witness :
  let db : table := {[("#a"%string, "bob"%string) := (10, 100)]} in
  snd (roll_highscore db "#A" "bob" 15 200)
  = ["bob" +:+ " beats their previous weekly high (" +:+ pretty 10
           +:+ ") with " +:+ pretty 15 +:+ "!"].
Proof.
  intros db.
  destruct (roll_highscore_announced db "#A" "bob" 15 200 eq_refl eq_refl)
    as (_ & H & _).
  apply (H 10 100); [reflexivity | lia].
Defined.

(** ** The matcher finds what the pattern describes *)

Lemma str_app_cons (x : ascii) (a b : string) :
  String x a +:+ b = String x (a +:+ b).
Proof. reflexivity. Qed.

Lemma str_app_nil_l (b : string) : EmptyString +:+ b = b.
Proof. reflexivity. Qed.

Lemma str_app_assoc (a b c : string) : (a +:+ b) +:+ c = a +:+ (b +:+ c).
Proof.
  induction a as [|x a IH]; [done|]. rewrite !str_app_cons. by f_equal.
Qed.

Lemma str_app_nil_r (a : string) : a +:+ EmptyString = a.
Proof. induction a as [|x a IH]; [done|]. rewrite str_app_cons. by f_equal. Qed.

Lemma str_length_app (a b : string) :
  String.length (a +:+ b) = (String.length a + String.length b)%nat.
Proof.
  induction a as [|x a IH]; [done|]. rewrite str_app_cons. simpl. by rewrite IH.
Qed.

Lemma consumed_app (w rest : string) : consumed (w +:+ rest) rest = w.
Proof.
  unfold consumed. rewrite str_length_app.
  replace (String.length w + String.length rest - String.length rest)%nat
    with (String.length w) by lia.
  induction w as [|x w IH].
  - rewrite str_app_nil_l. by destruct rest.
  - rewrite str_app_cons. simpl. by f_equal.
Qed.

Section soundness.
Context {R : Type} (ic : bool).

(** What it means for the matcher of [r] to be sound. *)
Let sound (r : regex) : Prop :=
  forall s caps (k : @cont R) x,
    rmatch ic r s caps k = Some x ->
    exists w rest caps',
      s = w +:+ rest /\ matches ic r w caps caps' /\ k rest caps' = Some x.

Lemma star_loop_sound (r : regex) (k : @cont R) :
  sound r ->
  forall fuel s caps x,
    star_loop fuel (rmatch ic r) s caps k = Some x ->
    exists w rest caps',
      s = w +:+ rest /\ matches ic (Star r) w caps caps' /\ k rest caps' = Some x.
Proof.
  intros Hr. induction fuel as [|fuel IH]; intros s caps x; simpl.
  - intros Hk. exists EmptyString, s, caps. split; [done|]. split; [apply matches_Star_nil | done].
  - destruct (rmatch ic r s caps _) as [y|] eqn:E.
    + intros [= ->]. apply Hr in E as (w1 & s1 & caps1 & -> & Hm1 & Hk1).
      destruct (_ <? _)%nat; [|done].
      apply IH in Hk1 as (w2 & rest & caps2 & -> & Hm2 & Hk2).
      exists (w1 +:+ w2), rest, caps2. rewrite str_app_assoc.
      split; [done|]. split; [by econstructor | done].
    + intros Hk. exists EmptyString, s, caps. split; [done|]. split; [apply matches_Star_nil | done].
Qed.

Lemma rmatch_sound (r : regex) : sound r.
Proof.
  induction r as [c| |r1 IH1 r2 IH2|r IH|r IH|r IH|name r IH];
    intros s caps k x; simpl.
  - destruct s as [|c' s]; [done|]. destruct (chr_matches ic c c') eqn:E; [|done].
    intros Hk. exists (String c' EmptyString), s, caps.
    split; [done|]. split; [by constructor | done].
  - destruct s as [|c' s]; [done|]. destruct (is_digit c') eqn:E; [|done].
    intros Hk. exists (String c' EmptyString), s, caps.
    split; [done|]. split; [by constructor | done].
  - intros (w1 & s1 & caps1 & -> & Hm1 & H2)%IH1.
    apply IH2 in H2 as (w2 & rest & caps2 & -> & Hm2 & Hk).
    exists (w1 +:+ w2), rest, caps2. rewrite str_app_assoc.
    split; [done|]. split; [by econstructor | done].
  - destruct (rmatch ic r s caps k) as [y|] eqn:E.
    + intros [= ->]. apply IH in E as (w & rest & caps' & -> & Hm & Hk).
      exists w, rest, caps'. split; [done|]. split; [by apply matches_Opt_some | done].
    + intros Hk. exists EmptyString, s, caps. split; [done|].
      split; [apply matches_Opt_none | done].
  - by apply star_loop_sound.
  - intros (w1 & s1 & caps1 & -> & Hm1 & H2)%IH.
    apply (star_loop_sound r k IH) in H2 as (w2 & rest & caps2 & -> & Hm2 & Hk).
    exists (w1 +:+ w2), rest, caps2. rewrite str_app_assoc.
    split; [done|]. split; [by econstructor | done].
  - intros (w & rest & caps' & -> & Hm & Hk)%IH. rewrite consumed_app in Hk.
    exists w, rest, (bind_group name w caps'). split; [done|].
    split; [by constructor | done].
Qed.
End soundness.

(** A match found at the head of [s] is a text the pattern matches, followed
    by the rest. *)
Lemma match_here_sound (ic : bool) (r : regex) (s : string) (m : Match) (rest : string) :
  match_here ic r s = Some (m, rest) ->
  s = group0 m +:+ rest /\ matches ic r (group0 m) [] (groupdict m).
Proof.
  unfold match_here. intros (w & rest' & caps & -> & Hm & [= <- <-])%rmatch_sound.
  rewrite consumed_app. done.
Qed.

Lemma finditer_from_elem (fuel : nat) (ic : bool) (r : regex) (s : string) (m : Match) :
  m ∈ finditer_from fuel ic r s ->
  exists s' rest, match_here ic r s' = Some (m, rest).
Proof.
  revert s. induction fuel as [|fuel IH]; intros s; simpl.
  - intros H. by apply elem_of_nil in H.
  - assert (Hskip : m ∈ match s with
                         | String _ s' => finditer_from fuel ic r s'
                         | EmptyString => []
                         end -> exists s' rest, match_here ic r s' = Some (m, rest)).
    { destruct s as [|c s']; [intros H; by apply elem_of_nil in H | apply IH]. }
    destruct (match_here ic r s) as [[m' rest]|] eqn:E; [|done].
    destruct (_ <? _)%nat; (intros [->|H]%elem_of_cons; [by eauto|]); eauto.
Qed.

(** ** The shape of a dice token *)

Lemma str_app_eq_nil (a b : string) :
  a +:+ b = EmptyString -> a = EmptyString /\ b = EmptyString.
Proof. destruct a; [by rewrite str_app_nil_l | by rewrite str_app_cons]. Qed.

Lemma all_digits_app (a b : string) :
  all_digits (a +:+ b) = all_digits a && all_digits b.
Proof.
  induction a as [|x a IH]; [done|]. rewrite str_app_cons. simpl.
  by rewrite IH, andb_assoc.
Qed.

Lemma matches_Chr_inv ic c w caps caps' :
  matches ic (Chr c) w caps caps' ->
  exists c', w = String c' EmptyString /\ caps' = caps /\ chr_matches ic c c' = true.
Proof. intros H. inversion H; subst. eauto. Qed.

Lemma matches_Digit_inv ic w caps caps' :
  matches ic Digit w caps caps' ->
  exists c', w = String c' EmptyString /\ caps' = caps /\ is_digit c' = true.
Proof. intros H. inversion H; subst. eauto. Qed.

Lemma matches_Cat_inv ic r1 r2 w caps caps' :
  matches ic (Cat r1 r2) w caps caps' ->
  exists w1 w2 caps1,
    w = w1 +:+ w2 /\ matches ic r1 w1 caps caps1 /\ matches ic r2 w2 caps1 caps'.
Proof. intros H. inversion H; subst. eauto 10. Qed.

Lemma matches_Opt_inv ic r w caps caps' :
  matches ic (Opt r) w caps caps' ->
  (w = EmptyString /\ caps' = caps) \/ matches ic r w caps caps'.
Proof. intros H. inversion H; subst; auto. Qed.

Lemma matches_Plus_inv ic r w caps caps' :
  matches ic (Plus r) w caps caps' ->
  exists w1 w2 caps1,
    w = w1 +:+ w2 /\ matches ic r w1 caps caps1 /\ matches ic (Star r) w2 caps1 caps'.
Proof. intros H. inversion H; subst. eauto 10. Qed.

Lemma matches_Group_inv ic name r w caps caps' :
  matches ic (Group name r) w caps caps' ->
  exists caps1, matches ic r w caps caps1 /\ caps' = bind_group name w caps1.
Proof. intros H. inversion H; subst. eauto. Qed.

Lemma matches_star_digit ic w caps caps' :
  matches ic (Star Digit) w caps caps' -> caps' = caps /\ all_digits w = true.
Proof.
  intros H. remember (Star Digit) as r eqn:Hr.
  induction H as [| | | | | |r1 w1 w2 c0 c1 c2 H1 _ H2 IH2| |]; try discriminate.
  - done.
  - injection Hr as ->.
    apply matches_Digit_inv in H1 as (c' & -> & -> & Hc).
    destruct (IH2 eq_refl) as [-> Hw2].
    split; [done|]. rewrite all_digits_app. simpl. by rewrite Hc, Hw2.
Qed.

Lemma matches_plus_digit ic w caps caps' :
  matches ic (Plus Digit) w caps caps' ->
  caps' = caps /\ all_digits w = true /\ w <> EmptyString.
Proof.
  intros (w1 & w2 & caps1 & -> & H1 & H2)%matches_Plus_inv.
  apply matches_Digit_inv in H1 as (c' & -> & -> & Hc).
  apply matches_star_digit in H2 as [-> Hw2].
  split; [done|]. rewrite str_app_cons, str_app_nil_l. simpl.
  split; [by rewrite Hc, Hw2 | done].
Qed.

Lemma lower_ascii_minus (c : ascii) : chr_matches true "-" c = true -> c = "-"%char.
Proof. destruct c as [[] [] [] [] [] [] [] []]; try discriminate; reflexivity. Qed.

Lemma matches_opt_minus w caps caps' :
  matches true (Opt (Chr "-")) w caps caps' ->
  caps' = caps /\ (w = EmptyString \/ w = String "-" EmptyString).
Proof.
  intros [[-> ->]|H]%matches_Opt_inv; [by auto|].
  apply matches_Chr_inv in H as (c' & -> & -> & Hc).
  apply lower_ascii_minus in Hc as ->. auto.
Qed.

Lemma matches_sign_and_digits w caps caps' :
  matches true (Cat (Opt (Chr "-")) (Star Digit)) w caps caps' ->
  caps' = caps /\ sign_and_digits w.
Proof.
  intros (w1 & w2 & caps1 & -> & H1 & H2)%matches_Cat_inv.
  apply matches_opt_minus in H1 as [-> Hsign].
  apply matches_star_digit in H2 as [-> Hds]. split; [done|].
  exists w2. split; [done|]. destruct Hsign as [->| ->]; [by left | by right].
Qed.

Lemma matches_signed_number w caps caps' :
  matches true (Cat (Opt (Chr "-")) (Plus Digit)) w caps caps' ->
  caps' = caps /\ signed_number w.
Proof.
  intros (w1 & w2 & caps1 & -> & H1 & H2)%matches_Cat_inv.
  apply matches_opt_minus in H1 as [-> Hsign].
  apply matches_plus_digit in H2 as (-> & Hds & Hne). split; [done|].
  exists w2. split; [done|]. split; [done|].
  destruct Hsign as [->| ->]; [by left | by right].
Qed.

(** A text matched by [dice_regexp] is a dice token and is not empty. *)
Lemma dice_regexp_token (w : string) (caps : captures) :
  matches true dice_regexp w [] caps ->
  dice_token (mkMatch w caps) /\ w <> EmptyString.
Proof.
  unfold dice_regexp.
  intros (wn & w' & caps1 & -> & Hn & H)%matches_Cat_inv.
  apply matches_Group_inv in Hn as (caps0 & Hn & ->).
  apply matches_sign_and_digits in Hn as [-> Hnum].
  apply matches_Cat_inv in H as (wd & w'' & caps2 & -> & Hd & H).
  apply matches_Chr_inv in Hd as (d & -> & -> & _).
  apply matches_Cat_inv in H as (wt & wv & caps3 & -> & Ht & Hv).
  apply matches_Group_inv in Ht as (caps4 & Ht & ->).
  apply matches_signed_number in Ht as [-> Htype].
  split.
  2:{ intros [_ Habs]%str_app_eq_nil. by rewrite str_app_cons in Habs. }
  unfold dice_token, group. simpl.
  apply matches_Opt_inv in Hv as [[-> ->]|Hv].
  - simpl. split; [by eauto|]. split; [by eauto|]. by left.
  - apply matches_Group_inv in Hv as (caps5 & Hv & ->).
    apply matches_Cat_inv in Hv as (w1 & w2 & caps6 & -> & Hv1 & Hv2).
    apply matches_Chr_inv in Hv1 as (v & -> & -> & _).
    apply matches_Group_inv in Hv2 as (caps7 & Hv2 & ->).
    apply matches_signed_number in Hv2 as [-> Hdrop]. simpl.
    split; [by eauto|]. split; [by eauto|]. right. eauto.
Qed.

Lemma match_here_dice_token (s : string) (m : Match) (rest : string) :
  match_here true dice_regexp s = Some (m, rest) ->
  dice_token m /\ s = group0 m +:+ rest /\ group0 m <> EmptyString.
Proof.
  intros [Hs Hm]%match_here_sound. destruct m as [w caps]. simpl in *.
  apply dice_regexp_token in Hm as [Htok Hne]. done.
Qed.

Lemma dice_expressions_are_tokens (raw : string) (m : Match) :
  m ∈ dice_expressions_of raw -> dice_token m.
Proof.
  intros (s' & rest & H)%finditer_from_elem.
  by apply match_here_dice_token in H as [? _].
Qed.

(** *** Converting the groups to integers *)

Lemma digits_value_all_digits (ds : string) : forall acc,
  all_digits ds = true -> exists v, digits_value ds acc = Some v.
Proof.
  induction ds as [|c ds IH]; intros acc; simpl; [by eauto|].
  intros [Hc Hds]%andb_true_iff. rewrite Hc. by apply IH.
Qed.

Lemma int_unsigned_digits (ds : string) :
  all_digits ds = true -> ds <> EmptyString -> exists v, int_unsigned ds = Ok v.
Proof.
  intros Hds Hne. unfold int_unsigned. destruct ds as [|c ds]; [done|].
  destruct (digits_value_all_digits (String c ds) 0 Hds) as [v ->]. eauto.
Qed.

Lemma py_int_digit_head (c : ascii) (t : string) :
  is_digit c = true -> py_int (String c t) = int_unsigned (String c t).
Proof. destruct c as [[] [] [] [] [] [] [] []]; try discriminate; reflexivity. Qed.

Lemma py_int_digits (ds : string) :
  all_digits ds = true -> ds <> EmptyString -> exists v, py_int ds = Ok v.
Proof.
  intros Hds Hne. destruct ds as [|c ds]; [done|].
  pose proof Hds as Hc. simpl in Hc. apply andb_true_iff in Hc as [Hc _].
  rewrite (py_int_digit_head c ds Hc). by apply int_unsigned_digits.
Qed.

Lemma py_int_signed_number (t : string) :
  signed_number t -> exists v, py_int t = Ok v.
Proof.
  intros (ds & Hds & Hne & [->| ->]); [by apply py_int_digits|].
  destruct (int_unsigned_digits ds Hds Hne) as [v Hv].
  exists (- v). unfold py_int. rewrite Hv. done.
Qed.

Lemma signed_number_truthy (t : string) :
  signed_number t -> truthy (Some t) = Some t.
Proof. intros (ds & _ & Hne & [->| ->]); [by destruct ds | done]. Qed.

(** The count of a token is read unless it is a bare ["-"]. *)
Lemma int_or_1_sign_and_digits (t : string) :
  sign_and_digits t ->
  (t = String "-" EmptyString /\ int_or_1 (Some t) = Raise ValueError)
  \/ (t <> String "-" EmptyString /\ exists v, int_or_1 (Some t) = Ok v).
Proof.
  intros (ds & Hds & [->| ->]).
  - right. split.
    { intros ->. discriminate. }
    destruct ds as [|c ds]; [by exists 1|].
    unfold int_or_1. simpl. by apply py_int_digits.
  - destruct ds as [|c ds]; [by left|]. right. split; [done|].
    unfold int_or_1. simpl.
    change (py_int (String "-" (String c ds)))
      with (v ← int_unsigned (String c ds); Ok (- v)).
    destruct (int_unsigned_digits (String c ds) Hds) as [v ->]; [done|]. by eauto.
Qed.

(** ** The template: escaping, substitution and formatting *)

Lemma escape_percent_app (a b : string) :
  escape_percent (a +:+ b) = escape_percent a +:+ escape_percent b.
Proof.
  induction a as [|x a IH]; [done|]. rewrite str_app_cons. simpl.
  destruct (Ascii.eqb x "%"); rewrite ?str_app_cons; by rewrite IH.
Qed.

Lemma escape_percent_nil (a : string) :
  escape_percent a = EmptyString -> a = EmptyString.
Proof. destruct a as [|x a]; [done|]. simpl. by destruct (Ascii.eqb x "%"). Qed.

(** Of two suffixes of a text, the shorter stays the shorter once escaped. *)
Lemma escape_percent_shorter (w rest : string) :
  (String.length rest <? String.length (w +:+ rest))%nat
  = (String.length (escape_percent rest)
     <? String.length (escape_percent (w +:+ rest)))%nat.
Proof.
  rewrite escape_percent_app, !str_length_app.
  destruct w as [|x w]; simpl.
  - rewrite !Nat.ltb_irrefl. done.
  - transitivity true; [apply Nat.ltb_lt; lia|]. symmetry. apply Nat.ltb_lt.
    destruct (Ascii.eqb x "%"); simpl; lia.
Qed.

Section matcher_facts.
Context {R : Type} (ic : bool).

(** A matcher whose continuation always fails, fails. *)
Lemma star_loop_fail (step : string -> captures -> @cont R -> option R) (k : @cont R) :
  (forall s caps k', (forall s' caps', k' s' caps' = None) -> step s caps k' = None) ->
  (forall s caps, k s caps = None) ->
  forall fuel s caps, star_loop fuel step s caps k = None.
Proof.
  intros Hstep Hk. induction fuel as [|fuel IH]; intros s caps; simpl; [done|].
  rewrite Hstep; [done|]. intros s' caps'. by destruct (_ <? _)%nat.
Qed.

Lemma rmatch_fail (r : regex) : forall s caps (k : @cont R),
  (forall s' caps', k s' caps' = None) -> rmatch ic r s caps k = None.
Proof.
  induction r as [c| |r1 IH1 r2 IH2|r IH|r IH|r IH|name r IH];
    intros s caps k Hk; simpl.
  - destruct s as [|c' s]; [done|]. by destruct (chr_matches ic c c').
  - destruct s as [|c' s]; [done|]. by destruct (is_digit c').
  - apply IH1. intros s' caps'. by apply IH2.
  - by rewrite IH.
  - by apply star_loop_fail.
  - apply IH. intros s' caps'. by apply star_loop_fail.
  - apply IH. intros s' caps'. apply Hk.
Qed.
End matcher_facts.

Lemma option_Forall2_or_else {A B} (P : A -> B -> Prop)
    (o1 d1 : option A) (o2 d2 : option B) :
  option_Forall2 P o1 o2 -> option_Forall2 P d1 d2 ->
  option_Forall2 P (match o1 with Some x => Some x | None => d1 end)
                   (match o2 with Some x => Some x | None => d2 end).
Proof. intros [x y H|] Hd; [by constructor | done]. Qed.

Section escape_simulation.
Context {R1 R2 : Type} (P : R1 -> R2 -> Prop) (ic : bool).

(** The continuations [k1], on the suffixes of [s], and [k2], on the same
    suffixes escaped, succeed together, with results related by [P]. *)
Let related (s : string) (k1 : @cont R1) (k2 : @cont R2) : Prop :=
  forall w s' caps1 caps2,
    s = w +:+ s' ->
    option_Forall2 P (k1 s' caps1) (k2 (escape_percent s') caps2).

Let simulates (r : regex) : Prop :=
  forall s caps1 caps2 k1 k2,
    related s k1 k2 ->
    option_Forall2 P (rmatch ic r s caps1 k1)
                     (rmatch ic r (escape_percent s) caps2 k2).

Lemma related_suffix (w s' : string) k1 k2 :
  related (w +:+ s') k1 k2 -> related s' k1 k2.
Proof.
  intros H w' s'' caps1 caps2 ->. apply (H (w +:+ w')). by rewrite str_app_assoc.
Qed.

Lemma star_loop_escape (r : regex) :
  simulates r ->
  forall fuel1 fuel2 s caps1 caps2 k1 k2,
    (String.length s <= fuel1)%nat ->
    (String.length (escape_percent s) <= fuel2)%nat ->
    related s k1 k2 ->
    option_Forall2 P (star_loop fuel1 (rmatch ic r) s caps1 k1)
                     (star_loop fuel2 (rmatch ic r) (escape_percent s) caps2 k2).
Proof.
  intros Hr. induction fuel1 as [|fuel1 IH]; intros fuel2 s caps1 caps2 k1 k2 H1 H2 Hk.
  - destruct s as [|c s]; [|simpl in H1; lia]. simpl.
    destruct fuel2 as [|fuel2]; simpl.
    + by apply (Hk EmptyString).
    + rewrite rmatch_fail by done. by apply (Hk EmptyString).
  - destruct fuel2 as [|fuel2].
    + assert (s = EmptyString) as ->.
      { apply escape_percent_nil. destruct (escape_percent s); [done | simpl in H2; lia]. }
      simpl. rewrite rmatch_fail by done. by apply (Hk EmptyString).
    + simpl.
      assert (Hstep : option_Forall2 P
                (rmatch ic r s caps1 (fun s' caps' =>
                   if (String.length s' <? String.length s)%nat
                   then star_loop fuel1 (rmatch ic r) s' caps' k1 else None))
                (rmatch ic r (escape_percent s) caps2 (fun s' caps' =>
                   if (String.length s' <? String.length (escape_percent s))%nat
                   then star_loop fuel2 (rmatch ic r) s' caps' k2 else None))).
      { apply Hr. intros w s' c1 c2 ->. rewrite <- escape_percent_shorter.
        destruct (_ <? _)%nat eqn:Hlt; [|constructor].
        apply Nat.ltb_lt in Hlt. apply IH.
        - lia.
        - pose proof (escape_percent_shorter w s') as Hsh.
          rewrite (proj2 (Nat.ltb_lt _ _) Hlt) in Hsh. symmetry in Hsh.
          apply Nat.ltb_lt in Hsh. lia.
        - by eapply related_suffix. }
      apply option_Forall2_or_else; [exact Hstep | by apply (Hk EmptyString)].
Qed.

Lemma rmatch_escape (r : regex) : percent_free ic r = true -> simulates r.
Proof.
  induction r as [c| |r1 IH1 r2 IH2|r IH|r IH|r IH|name r IH];
    simpl; intros Hfree s caps1 caps2 k1 k2 Hk.
  - apply negb_true_iff in Hfree.
    destruct s as [|c' s]; simpl; [constructor|].
    destruct (Ascii.eqb_spec c' "%") as [->|Hne]; simpl.
    + rewrite Hfree. constructor.
    + destruct (chr_matches ic c c'); [|constructor].
      by apply (Hk (String c' EmptyString)).
  - destruct s as [|c' s]; simpl; [constructor|].
    destruct (Ascii.eqb_spec c' "%") as [->|Hne]; simpl; [constructor|].
    destruct (is_digit c'); [|constructor].
    by apply (Hk (String c' EmptyString)).
  - apply andb_true_iff in Hfree as [Hf1 Hf2].
    apply (IH1 Hf1). intros w s' c1 c2 ->.
    apply (IH2 Hf2). by eapply related_suffix.
  - apply option_Forall2_or_else; [by apply IH | by apply (Hk EmptyString)].
  - apply star_loop_escape; [by apply IH | done | done | done].
  - apply (IH Hfree). intros w s' c1 c2 ->.
    apply star_loop_escape; [by apply IH | done | done |]. by eapply related_suffix.
  - apply (IH Hfree). intros w s' c1 c2 Hs. by apply (Hk w).
Qed.
End escape_simulation.

(** Escaping the percent signs of a text changes nothing to the matches of
    a pattern without a percent sign: a match is found in the one exactly
    when one is found in the other, and what follows it corresponds. *)
Lemma match_here_escape (ic : bool) (r : regex) (s : string) :
  percent_free ic r = true ->
  option_Forall2 (fun x y => snd y = escape_percent (snd x))
    (match_here ic r s) (match_here ic r (escape_percent s)).
Proof.
  intros Hfree. unfold match_here.
  apply (rmatch_escape _ ic r Hfree). intros w s' c1 c2 _. by constructor.
Qed.

Lemma match_here_percent (t : string) :
  match_here true dice_regexp (String "%" t) = None.
Proof. reflexivity. Qed.

Lemma match_here_progress (s : string) (m : Match) (rest : string) :
  match_here true dice_regexp s = Some (m, rest) ->
  (String.length rest <? String.length s)%nat = true.
Proof.
  intros (_ & -> & Hne)%match_here_dice_token. apply Nat.ltb_lt.
  rewrite str_length_app. destruct (group0 m); [done | simpl; lia].
Qed.

Lemma py_format_other (c : ascii) (t : string) (args : list string) :
  c <> "%"%char ->
  py_format (String c t) args = r ← py_format t args; Ok (String c r).
Proof. destruct c as [[] [] [] [] [] [] [] []]; try done; reflexivity. Qed.

Lemma length_escape_percent (s : string) :
  (String.length s <= String.length (escape_percent s))%nat.
Proof.
  induction s as [|c s IH]; simpl; [done|].
  destruct (Ascii.eqb c "%"); simpl; lia.
Qed.

(** The template of a text, formatted with one argument per dice token, is
    the text with each token replaced by its argument. *)
Lemma template_format_from : forall (fuel1 fuel2 fuel3 : nat) (s : string)
    (args : list string),
  (String.length s < fuel1)%nat ->
  (String.length (escape_percent s) < fuel2)%nat ->
  (String.length s < fuel3)%nat ->
  length args = length (finditer_from fuel1 true dice_regexp s) ->
  py_format (sub_from fuel2 true dice_regexp "%s" (escape_percent s)) args
  = Ok (sub_each_from fuel3 true dice_regexp s args).
Proof.
  induction fuel1 as [|fuel1 IH]; intros fuel2 fuel3 s args H1 H2 H3 Hlen; [lia|].
  destruct fuel2 as [|fuel2]; [lia|]. destruct fuel3 as [|fuel3]; [lia|].
  pose proof (match_here_escape true dice_regexp s eq_refl) as Hsim.
  cbn [finditer_from] in Hlen. cbn [sub_from sub_each_from].
  destruct (match_here true dice_regexp s) as [[m rest]|] eqn:E.
  - (* a token starts here *)
    pose proof (match_here_progress s m rest E) as Hprog.
    apply match_here_dice_token in E as (_ & Hs & Hne).
    inversion Hsim as [x [m' rest'] Hrest Hx Hy|]; subst x. simpl in Hrest. subst rest'.
    symmetry in Hy. rewrite (match_here_progress _ _ _ Hy).
    rewrite Hprog in Hlen |- *. apply Nat.ltb_lt in Hprog.
    pose proof (match_here_progress _ _ _ Hy) as Hprog'. apply Nat.ltb_lt in Hprog'.
    destruct args as [|a args]; [done|]. simpl in Hlen. injection Hlen as Hlen.
    rewrite !str_app_cons, str_app_nil_l. cbn [py_format].
    rewrite (IH fuel2 fuel3 rest args); [done | lia | lia | lia | done].
  - (* no token starts here *)
    inversion Hsim as [|Hx Hy]. clear Hsim.
    destruct s as [|c s]; [by destruct args|].
    simpl in H1, H3.
    cbn [escape_percent] in Hy, H2 |- *.
    destruct (Ascii.eqb_spec c "%") as [->|Hc].
    + simpl in H2. destruct fuel2 as [|fuel2]; [lia|].
      cbn [sub_from]. rewrite match_here_percent.
      cbn [py_format].
      rewrite (IH fuel2 fuel3 s args); [done | lia | lia | lia | done].
    + simpl in H2. rewrite py_format_other by done.
      rewrite (IH fuel2 fuel3 s args); [done | lia | lia | lia | done].
Qed.

(** X16. The template mechanism of [roll] is a plain substitution: the template
    built from the text, formatted with one argument per dice token, never
    fails and gives the text with each token replaced by its argument,
    percent signs in the text left as they are. *)
Theorem template_substitution (raw : string) (args : list string) :
  length args = length (dice_expressions_of raw) ->
  py_format (arg_str_of raw) args = Ok (re_sub_each true dice_regexp raw args).
Proof.
  intros Hlen. unfold arg_str_of, re_sub, re_sub_each.
  apply (template_format_from (S (String.length raw))); [lia | lia | lia | done].
Qed.

Lemma template_substitution_witness :
  py_format (arg_str_of "2d6 + 50% of d20") ["(7)"; "(13)"]%string
  = Ok (re_sub_each true dice_regexp "2d6 + 50% of d20" ["(7)"; "(13)"]%string).
Proof. apply (template_substitution "2d6 + 50% of d20"). reflexivity. Defined.

(** ** [_roll_dice] and [roll] on the tokens of the grammar *)

Lemma rolled_wf_nil (ty : Z) : rolled_wf ty [].
Proof. split; [apply NoDup_nil_2|]. intros k v H. by apply elem_of_nil in H. Qed.

Lemma _roll_dice_Ok_sound (m : Match) (g g' : RNG) (dp : DicePouch) :
  _roll_dice m g = Ok (dp, g') -> pouch_sound dp.
Proof.
  unfold _roll_dice.
  destruct (int_or_1 (group m "dice_num")) as [count|e]; [|done].
  destruct (int_of_group (group m "dice_type")) as [faces|e]; [|done]. simpl.
  destruct (Z.leb_spec faces 0); [done|].
  destruct (Z.ltb_spec count 0); [done|].
  destruct (Z.ltb_spec MAX_DICE count); [done|].
  destruct (DicePouch_init_spec count faces g) as
    (dp0 & g0 & -> & Hnum & Hty & Hdr & Hwf & Htot); [lia | lia |]. simpl.
  destruct (truthy (group m "drop_lowest")) as [s|].
  - destruct (py_int s) as [drop|e]; [|done]. simpl.
    destruct (Z.leb_spec 0 drop); [|done].
    destruct (drop_lowest_spec dp0 faces drop Hwf Hdr) as
      (dp' & -> & Hnum' & Hty' & Hk & Hd & Htk & Htd & _); [done|]. simpl.
    intros [= <- _]. unfold pouch_sound. rewrite Hnum', Hty', Hnum, Hty, Htk, Htd.
    split; [lia|]. split; [lia|]. split; [done|]. split; [done|]. lia.
  - intros [= <- _]. unfold pouch_sound. rewrite Hnum, Hty, Hdr.
    split; [lia|]. split; [lia|]. split; [done|]. split; [apply rolled_wf_nil|].
    unfold total at 2. simpl. lia.
Qed.

(** On a token of the grammar [_roll_dice] raises [ValueError] when the
    count is a bare ["-"], and otherwise returns a pouch or raises a
    [DiceError]. *)
Lemma _roll_dice_token (m : Match) (g : RNG) :
  dice_token m ->
  (group m "dice_num" = Some (String "-" EmptyString)
   /\ _roll_dice m g = Raise ValueError)
  \/ (group m "dice_num" <> Some (String "-" EmptyString)
      /\ ((exists dp g', _roll_dice m g = Ok (dp, g'))
          \/ exists err, _roll_dice m g = Raise (Dice err))).
Proof.
  intros ((tn & Hn & Hsn) & (tt & Ht & Hst) & Hdrop).
  destruct (int_or_1_sign_and_digits tn Hsn) as [[-> Hraise]|[Hne [count Hcount]]].
  { left. split; [done|]. unfold _roll_dice. by rewrite Hn, Hraise. }
  right. split; [congruence|].
  destruct (py_int_signed_number tt Hst) as [faces Hfaces].
  unfold _roll_dice. rewrite Hn, Hcount, Ht. simpl. rewrite Hfaces. simpl.
  destruct (Z.leb_spec faces 0); [by eauto|].
  destruct (Z.ltb_spec count 0); [by eauto|].
  destruct (Z.ltb_spec MAX_DICE count); [by eauto|].
  destruct (DicePouch_init_spec count faces g) as
    (dp0 & g0 & -> & Hnum & Hty & Hdr & Hwf & Htot); [lia | lia |]. simpl.
  destruct Hdrop as [->|(td & -> & Hsd)]; [by eauto|].
  rewrite (signed_number_truthy td Hsd).
  destruct (py_int_signed_number td Hsd) as [drop ->]. simpl.
  destruct (Z.leb_spec 0 drop); [|by eauto].
  destruct (drop_lowest_spec dp0 faces drop Hwf Hdr) as (dp' & -> & _); [done|].
  simpl. by eauto.
Qed.

Lemma _roll_dice_token_raise (m : Match) (g : RNG) (e : exn) :
  dice_token m -> _roll_dice m g = Raise e ->
  (exists err, e = Dice err)
  \/ (e = ValueError /\ group m "dice_num" = Some (String "-" EmptyString)).
Proof.
  intros Htok He.
  destruct (_roll_dice_token m g Htok) as [[Hn Hr]|[_ [(dp & g' & Hr)|[err Hr]]]];
    rewrite Hr in He; [right | done | left].
  - by injection He as <-.
  - injection He as <-. by eauto.
Qed.

Lemma roll_all_Ok (ms : list Match) : forall (g g' : RNG) (dps : list DicePouch),
  roll_all ms g = Ok (dps, g') ->
  length dps = length ms /\ Forall pouch_sound dps.
Proof.
  induction ms as [|m ms IH]; intros g g' dps; simpl.
  { intros [= <- _]. done. }
  destruct (_roll_dice m g) as [[dp g1]|e] eqn:E; [|done]. simpl.
  destruct (roll_all ms g1) as [[dps' g2]|e] eqn:E'; [|done]. simpl.
  intros [= <- _]. destruct (IH _ _ _ E') as [Hlen Hall].
  split; [simpl; by rewrite Hlen|].
  constructor; [by eapply _roll_dice_Ok_sound | done].
Qed.

Lemma roll_all_Raise (ms : list Match) : forall (g : RNG) (e : exn),
  roll_all ms g = Raise e ->
  exists m g1, m ∈ ms /\ _roll_dice m g1 = Raise e.
Proof.
  induction ms as [|m ms IH]; intros g e; simpl; [done|].
  destruct (_roll_dice m g) as [[dp g1]|e'] eqn:E; simpl.
  - destruct (roll_all ms g1) as [[dps' g2]|e''] eqn:E'; [done|]. simpl.
    intros [= <-]. destruct (IH _ _ E') as (m' & g' & Hin & Hr).
    exists m', g'. split; [by apply list_elem_of_further | done].
  - intros [= <-]. exists m, g. split; [apply list_elem_of_here | done].
Qed.

Lemma py_format_template (raw : string) (args : list string) :
  length args = length (dice_expressions_of raw) ->
  py_format (arg_str_of raw) args = Ok (re_sub_each true dice_regexp raw args).
Proof.
  intros Hlen. unfold arg_str_of, re_sub, re_sub_each.
  apply (template_format_from (S (String.length raw))); [lia | lia | lia | done].
Qed.

(** [roll] on a text that is not empty, with the two formatting steps
    carried out. *)
Lemma roll_cases (c : ascii) (t : string) (g : RNG) :
  let raw := arg_str_raw_of (String c t) in
  roll (Some (String c t)) g =
    match dice_expressions_of raw with
    | [] => Replied "I couldn't find any valid dice expressions."
    | ms =>
        match roll_all ms g with
        | Raise (Dice err) => Replied (_get_error_message err)
        | Raise e => Uncaught e
        | Ok (dice, _) =>
            Rolled raw (arg_str_of raw) dice
              (re_sub_each true dice_regexp raw (map _get_eval_str dice))
              (re_sub_each true dice_regexp raw (map _get_pretty_str dice))
        end
    end.
Proof.
  intros raw. unfold roll. fold raw.
  destruct (dice_expressions_of raw) as [|m ms] eqn:Hms; [done|].
  destruct (roll_all (m :: ms) g) as [[dice g']|e] eqn:Hroll; [|done].
  apply roll_all_Ok in Hroll as [Hlen _]. rewrite <- Hms in Hlen.
  rewrite !py_format_template by (by rewrite length_map). done.
Qed.

(** X14. Every token that [roll] finds in a line of text has a count that is an
    optional sign and digits, faces that are a signed number and, if any, a
    drop count that is a signed number; the text it matched is not empty and
    is a word of the grammar of [dice_regexp]. *)
Theorem dice_expressions_shape (raw : string) (m : Match) :
  ascii_line raw = true ->
  m ∈ dice_expressions_of raw ->
  dice_token m /\ group0 m <> EmptyString
  /\ matches true dice_regexp (group0 m) [] (groupdict m).
Proof.
  intros _ (s' & rest & H)%finditer_from_elem.
  pose proof (match_here_sound _ _ _ _ _ H) as [_ Hm].
  apply match_here_dice_token in H as (? & _ & ?). done.
Qed.

Lemma dice_expressions_shape_witness :
  let m := mkMatch "2D6v1" [("drop_lowest", "1"); ("dice_type", "6"); ("dice_num", "2")] in
  dice_token m /\ group0 m <> EmptyString
  /\ matches true dice_regexp (group0 m) [] (groupdict m).
Proof.
  apply (dice_expressions_shape "roll 2D6v1 now"); [reflexivity|]. vm_compute.
  apply list_elem_of_here.
Defined.

(** X17. On a token found in a line of text, [_roll_dice] raises [ValueError]
    exactly when the count is a bare ["-"]; otherwise it raises a
    [DiceError] or returns a sound pouch. [TypeError] never arises. *)
Theorem roll_dice_on_token (raw : string) (m : Match) (g : RNG) :
  ascii_line raw = true ->
  m ∈ dice_expressions_of raw ->
  (group m "dice_num" = Some (String "-" EmptyString)
   /\ _roll_dice m g = Raise ValueError)
  \/ (group m "dice_num" <> Some (String "-" EmptyString)
      /\ ((exists dp g', _roll_dice m g = Ok (dp, g') /\ pouch_sound dp)
          \/ exists err, _roll_dice m g = Raise (Dice err))).
Proof.
  intros _ Htok%dice_expressions_are_tokens.
  destruct (_roll_dice_token m g Htok) as [H|[Hne [(dp & g' & Hr)|H]]];
    [by left | right | right; by eauto].
  split; [done|]. left. exists dp, g'. split; [done|].
  by eapply _roll_dice_Ok_sound.
Qed.

Lemma roll_dice_on_token_witness :
  let m := mkMatch "2d6v1" [("drop_lowest", "1"); ("dice_type", "6"); ("dice_num", "2")] in
  (group m "dice_num" = Some (String "-" EmptyString)
   /\ _roll_dice m sample_supply = Raise ValueError)
  \/ (group m "dice_num" <> Some (String "-" EmptyString)
      /\ ((exists dp g', _roll_dice m sample_supply = Ok (dp, g') /\ pouch_sound dp)
          \/ exists err, _roll_dice m sample_supply = Raise (Dice err))).
Proof.
  apply (roll_dice_on_token "2d6v1"); [reflexivity|]. vm_compute.
  apply list_elem_of_here.
Defined.

(** X18. The only exception that leaves [roll] before the evaluation is the
    [ValueError] of a token whose count is a bare ["-"]: formatting the
    template never fails and no group is ever missing. *)
Theorem roll_uncaught_only_bare_minus (text : string) (g : RNG) (e : exn) :
  ascii_line text = true ->
  roll (Some text) g = Uncaught e ->
  e = ValueError
  /\ exists m, m ∈ dice_expressions_of (arg_str_raw_of text)
       /\ group m "dice_num" = Some (String "-" EmptyString).
Proof.
  intros _. destruct text as [|c t]; [done|].
  rewrite roll_cases.
  destruct (dice_expressions_of _) as [|m ms] eqn:Hms; [done|].
  destruct (roll_all (m :: ms) g) as [[dice g']|e'] eqn:Hroll; [done|].
  intros He.
  apply roll_all_Raise in Hroll as (m' & g1 & Hin & Hr). rewrite <- Hms in Hin.
  pose proof (dice_expressions_are_tokens _ _ Hin) as Htok.
  destruct (_roll_dice_token_raise m' g1 e' Htok Hr) as [[err ->]|[-> Hn]]; [done|].
  injection He as <-. split; [done|]. exists m'. split; [by rewrite <- Hms | exact Hn].
Qed.

Lemma roll_uncaught_only_bare_minus_witness :
  roll (Some "3 + -d6") sample_supply = Uncaught ValueError
  /\ ValueError = ValueError
  /\ exists m, m ∈ dice_expressions_of (arg_str_raw_of "3 + -d6")
       /\ group m "dice_num" = Some (String "-" EmptyString).
Proof.
  split; [reflexivity|].
  apply (roll_uncaught_only_bare_minus "3 + -d6" sample_supply); reflexivity.
Defined.

(** X19. When [roll] gets as far as the evaluation, one sound pouch was rolled
    per token of the text, and [eval_str] and [pretty_str] are the text with
    each token replaced by the sum, respectively the rendering, of its
    pouch. *)
Theorem roll_rolled_substitution (text : string) (g : RNG)
    (raw tmpl : string) (dice : list DicePouch) (eval_str pretty_str : string) :
  ascii_line text = true ->
  roll (Some text) g = Rolled raw tmpl dice eval_str pretty_str ->
  raw = arg_str_raw_of text
  /\ tmpl = arg_str_of raw
  /\ length dice = length (dice_expressions_of raw) /\ dice <> []
  /\ Forall pouch_sound dice
  /\ eval_str = re_sub_each true dice_regexp raw (map _get_eval_str dice)
  /\ pretty_str = re_sub_each true dice_regexp raw (map _get_pretty_str dice).
Proof.
  intros _. destruct text as [|c t]; [done|].
  rewrite roll_cases.
  destruct (dice_expressions_of _) as [|m ms] eqn:Hms; [done|].
  destruct (roll_all (m :: ms) g) as [[dice' g']|e'] eqn:Hroll; [|by destruct e'].
  intros [= <- <- <- <- <-].
  apply roll_all_Ok in Hroll as [Hlen Hall]. rewrite <- Hms in Hlen.
  split; [done|]. split; [done|]. split; [done|].
  split; [|done].
  intros ->. rewrite Hms in Hlen. done.
Qed.

Lemma roll_rolled_substitution_witness :
  exists raw tmpl dice eval_str pretty_str,
    roll (Some "2d6+3 # for luck") sample_supply
      = Rolled raw tmpl dice eval_str pretty_str
    /\ raw = arg_str_raw_of "2d6+3 # for luck"
    /\ tmpl = arg_str_of raw
    /\ length dice = length (dice_expressions_of raw) /\ dice <> []
    /\ Forall pouch_sound dice
    /\ eval_str = re_sub_each true dice_regexp raw (map _get_eval_str dice)
    /\ pretty_str = re_sub_each true dice_regexp raw (map _get_pretty_str dice).
Proof.
  eexists _, _, _, _, _. split; [cbv; reflexivity|].
  apply (roll_rolled_substitution "2d6+3 # for luck" sample_supply); reflexivity.
Defined.

(** ** The leaderboard keeps the best rows *)

Lemma StronglySorted_app_ranks {A} (R : A -> A -> Prop) (l1 l2 : list A) (x y : A) :
  StronglySorted R (l1 ++ l2) -> x ∈ l1 -> y ∈ l2 -> R x y.
Proof.
  induction l1 as [|a l1 IH]; simpl; intros Hs Hx Hy.
  - by apply elem_of_nil in Hx.
  - apply StronglySorted_inv in Hs as [Hs Hall].
    apply elem_of_cons in Hx as [->|Hx]; [|by apply IH].
    rewrite Forall_forall in Hall. apply Hall, elem_of_app. by right.
Qed.

(** X9. A row of the channel that is not older than a week is on the
    leaderboard unless the leaderboard is full of rows that rank before it:
    the limit cuts the lowest ranks. *)
Theorem leaderboard_keeps_the_best (db : table) (channel : string) (limit now : Z)
    (nick : string) (score set_at : Z) :
  db !! (channel, nick) = Some (score, set_at) ->
  now - WEEK_SECONDS <= set_at ->
  let rows := snd (_get_channel_highscores db channel limit now) in
  (nick, score, set_at) ∈ rows
  \/ (Z.of_nat (length rows) = limit
      /\ forall r, r ∈ rows -> ranks_before r (nick, score, set_at)).
Proof.
  intros Hrow Hvalid. unfold _get_channel_highscores, select_highscores. simpl.
  set (rows0 := omap _ (map_to_list (_purge_expired db (Some now) now))).
  assert (Hin : (nick, score, set_at) ∈ sort_by row_before rows0).
  { rewrite (sort_by_perm row_before rows0). apply elem_selected.
    split; [|done]. apply purge_lookup_Some. split; [done | lia]. }
  assert (Hs : StronglySorted ranks_before (sort_by row_before rows0)).
  { apply sort_by_sorted; [apply row_before_total | apply row_before_trans]. }
  unfold sql_limit. destruct (Z.ltb_spec limit 0); [by left|].
  rewrite <- (take_drop (Z.to_nat limit) (sort_by row_before rows0)) in Hin, Hs.
  apply elem_of_app in Hin as [Hin|Hin]; [by left | right].
  split.
  - rewrite length_take.
    destruct (decide (Z.to_nat limit <= length (sort_by row_before rows0))%nat) as [|Hn];
      [lia|].
    rewrite drop_ge in Hin by lia. by apply elem_of_nil in Hin.
  - intros r Hr. by eapply StronglySorted_app_ranks.
Qed.

Lemma leaderboard_keeps_the_best_witness :
  let db : table := {[("#a"%string, "bob"%string) := (10, 100);
                      ("#a"%string, "eve"%string) := (12, 150)]} in
  let rows := snd (_get_channel_highscores db "#a" 1 200) in
  ("bob"%string, 10, 100) ∈ rows
  \/ (Z.of_nat (length rows) = 1
      /\ forall r, r ∈ rows -> ranks_before r ("bob"%string, 10, 100)).
Proof.
  intros db. apply (leaderboard_keeps_the_best db "#a" 1 200 "bob" 10 100).
  - reflexivity.
  - unfold WEEK_SECONDS. lia.
Defined.

Lemma leaderboard_rows_witness :
  let db : table := {[("#a"%string, "bob"%string) := (10, 100);
                      ("#a"%string, "eve"%string) := (12, 150)]} in
  Z.of_nat (length (snd (_get_channel_highscores db "#a" 1 200))) <= 1.
Proof.
  intros db.
  destruct (leaderboard_rows db "#a" 1 200) as (_ & _ & _ & H). apply H. lia.
Defined.

(** ** The answer of [my_highscore] *)

(** X12. In a channel [my_highscore] purges the table, reports the stored score
    of the user with its age when the row is not older than a week, and says
    that there is no high score when the row is missing or older. *)
Theorem my_highscore_answer (db : table) (sender nick : string) (clock : Z) :
  startswith sender "#" = true ->
  fst (my_highscore db sender nick clock) = _purge_expired db (Some clock) clock
  /\ (forall score set_at,
        db !! (lower sender, nick) = Some (score, set_at) ->
        clock - WEEK_SECONDS <= set_at ->
        snd (my_highscore db sender nick clock)
        = nick +:+ ": your weekly high is " +:+ pretty score
               +:+ " (" +:+ _format_age (clock - set_at) +:+ " ago)")
  /\ (db !! (lower sender, nick) = None
      \/ (exists score set_at,
            db !! (lower sender, nick) = Some (score, set_at)
            /\ set_at < clock - WEEK_SECONDS) ->
      snd (my_highscore db sender nick clock)
      = nick +:+ ": you don't have a weekly high score yet. Roll!").
Proof.
  intros Hs. unfold my_highscore. rewrite Hs. simpl.
  rewrite my_highscore_row_purged.
  split; [|split].
  - by destruct (_purge_expired db (Some clock) clock !! (lower sender, nick)) as [[]|].
  - intros score set_at Hrow Hvalid.
    assert (_purge_expired db (Some clock) clock !! (lower sender, nick)
            = Some (score, set_at)) as ->; [|done].
    apply purge_lookup_Some. split; [done | lia].
  - intros Hnone.
    assert (_purge_expired db (Some clock) clock !! (lower sender, nick) = None) as ->;
      [|done].
    apply purge_lookup_None. destruct Hnone as [|(score & set_at & Hrow & Hold)];
      [by left | right]. exists score, set_at. split; [done | lia].
Qed.

Lemma my_highscore_answer_witness :
  let db : table := {[("#a"%string, "bob"%string) := (10, 100)]} in
  snd (my_highscore db "#A" "bob" 200)
  = "bob" +:+ ": your weekly high is " +:+ pretty 10
          +:+ " (" +:+ _format_age (200 - 100) +:+ " ago)".
Proof.
  intros db.
  destruct (my_highscore_answer db "#A" "bob" 200 eq_refl) as (_ & H & _).
  apply H; [reflexivity | unfold WEEK_SECONDS; lia].
Defined.

(** ** The number of faces shown *)

Lemma rolled_wf_key_pos (ty : Z) (d : dict) (k : Z) :
  rolled_wf ty d ->
  0 <= dict_get_default d k 0 /\ (k ∈ keys d <-> 0 < dict_get_default d k 0).
Proof.
  intros [Hwf Hall]. unfold dict_get_default.
  destruct (dict_get d k) as [v|] eqn:E.
  - pose proof (dict_get_Some_elem _ _ _ E) as Hin.
    destruct (Hall k v Hin) as [_ Hv]. split; [lia|].
    split; [done|]. intros _. by eapply elem_keys.
  - split; [lia|]. apply dict_get_None in E. split; [done | lia].
Qed.

Lemma length_le_total (d : dict) :
  (forall k v, (k, v) ∈ d -> 0 < v) -> Z.of_nat (length d) <= total d.
Proof.
  induction d as [|[k v] d IH]; intros H.
  - unfold total. simpl. lia.
  - rewrite total_cons. pose proof (H k v (list_elem_of_here _ _)).
    assert (Z.of_nat (length d) <= total d).
    { apply IH. intros k' v' Hin. apply (H k' v'). by apply list_elem_of_further. }
    simpl length. lia.
Qed.

Lemma length_keys (d : dict) : length (keys d) = length d.
Proof. unfold keys. apply length_fmap. Qed.

Lemma length_le_faces (ty : Z) (d : dict) :
  0 <= ty -> rolled_wf ty d -> Z.of_nat (length d) <= ty.
Proof.
  intros Hty [Hwf Hall].
  assert (keys d ⊆+ seqZ 1 ty) as Hsub.
  { apply NoDup_submseteq; [done|].
    intros k [v Hv%dict_get_Some_elem]%keys_elem.
    apply elem_of_seqZ. destruct (Hall k v Hv). lia. }
  apply submseteq_length in Hsub. rewrite length_seqZ in Hsub.
  rewrite length_keys in Hsub. lia.
Qed.

Lemma faces_after_split (O K D : list Z) :
  NoDup O -> NoDup K -> NoDup D ->
  (forall k, k ∈ O <-> k ∈ K \/ k ∈ D) ->
  (forall k k', k ∈ D -> k' ∈ K -> k <= k') ->
  (length O <= length K + length D <= length O + 1)%nat.
Proof.
  intros HO HK HD Hiff Hord. split.
  - rewrite <- length_app. apply submseteq_length, NoDup_submseteq; [done|].
    intros k Hk. apply elem_of_app. by apply Hiff.
  - pose proof (filter_app_complement (.∈ K) D) as Hperm.
    apply Permutation_length in Hperm. rewrite length_app in Hperm.
    assert (length (filter (.∈ K) D) <= 1)%nat as Hone.
    { pose proof (NoDup_filter (.∈ K) D HD) as Hnd.
      assert (Hall : forall x, x ∈ filter (.∈ K) D -> x ∈ K /\ x ∈ D).
      { intros x Hx. by apply list_elem_of_filter in Hx. }
      destruct (filter (.∈ K) D) as [|a [|b l]]; simpl; [lia | lia |].
      exfalso.
      destruct (Hall a) as [HaK HaD]; [left|].
      destruct (Hall b) as [HbK HbD]; [right; left|].
      assert (a = b) as -> by (apply Z.le_antisymm; eauto).
      apply NoDup_cons in Hnd as [Hn _]. apply Hn. left. }
    assert (length (K ++ filter (fun x => ~ x ∈ K) D) <= length O)%nat as Hrest.
    { apply submseteq_length, NoDup_submseteq.
      - apply NoDup_app. split; [done|]. split; [|by apply NoDup_filter].
        intros x Hx [Hn _]%list_elem_of_filter. done.
      - intros x [Hx|[_ Hx]%list_elem_of_filter]%elem_of_app; apply Hiff; auto. }
    rewrite length_app in Hrest. lia.
Qed.

(** X4. [get_number_of_faces] counts the faces kept and the faces dropped. For a
    fresh pouch this is the number of distinct faces rolled, at most the
    number of dice and the number of faces of a die. Dropping dice never
    lowers it and raises it by at most one: only the face at which the
    dropping stops can be both kept and dropped, and it is counted twice. *)
Theorem number_of_faces_after_drop (count faces n : Z) (g : RNG) :
  0 <= count -> 1 <= faces -> 0 <= n ->
  exists dp g' dp',
    DicePouch_init count faces g = Ok (dp, g')
    /\ drop_lowest dp n = Ok dp'
    /\ 0 <= get_number_of_faces dp <= Z.min count faces
    /\ get_number_of_faces dp <= get_number_of_faces dp'
       <= get_number_of_faces dp + 1.
Proof.
  intros Hc Hf Hn.
  destruct (DicePouch_init_spec count faces g Hc Hf)
    as (dp & g' & Hinit & _ & _ & Hdr & Hwf & Htot).
  destruct (drop_lowest_spec dp faces n Hwf Hdr Hn)
    as (dp' & Hdrop & _ & _ & Hk & Hd & _ & _ & Hface & Hord & _).
  exists dp, g', dp'. split; [exact Hinit|]. split; [exact Hdrop|].
  unfold get_number_of_faces. rewrite Hdr. simpl.
  split.
  - pose proof (length_le_total (dice dp)) as H1.
    pose proof (length_le_faces faces (dice dp)) as H2.
    destruct Hwf as [Hwf Hall].
    assert (Z.of_nat (length (dice dp)) <= total (dice dp)).
    { apply H1. intros k v Hin. by apply (Hall k v). }
    assert (Z.of_nat (length (dice dp)) <= faces) by (apply H2; [lia | done]).
    lia.
  - pose proof (faces_after_split (keys (dice dp)) (keys (dice dp')) (keys (dropped dp')))
      as Hsplit.
    rewrite !length_keys in Hsplit.
    destruct Hsplit as [H1 H2]; [apply Hwf | apply Hk | apply Hd | | | lia].
    + intros k. specialize (Hface k).
      destruct (rolled_wf_key_pos faces (dice dp) k Hwf) as [? ->].
      destruct (rolled_wf_key_pos faces (dice dp') k Hk) as [? ->].
      destruct (rolled_wf_key_pos faces (dropped dp') k Hd) as [? ->]. lia.
    + intros k k' Hkd Hkk. by apply Hord.
Qed.

Lemma number_of_faces_after_drop_witness :
  exists dp g' dp',
    DicePouch_init 12 6 sample_supply = Ok (dp, g')
    /\ drop_lowest dp 3 = Ok dp'
    /\ 0 <= get_number_of_faces dp <= Z.min 12 6
    /\ get_number_of_faces dp <= get_number_of_faces dp'
       <= get_number_of_faces dp + 1.
Proof. apply (number_of_faces_after_drop 12 6 3); lia. Defined.

(** ** The case of the letters *)

Lemma lower_app (a b : string) : lower (a +:+ b) = lower a +:+ lower b.
Proof.
  induction a as [|x a IH]; [done|]. rewrite str_app_cons. simpl.
  by rewrite str_app_cons, IH.
Qed.

Lemma length_lower (s : string) : String.length (lower s) = String.length s.
Proof. induction s as [|c s IH]; simpl; [done | by rewrite IH]. Qed.

Lemma lower_ascii_idemp (c : ascii) : lower_ascii (lower_ascii c) = lower_ascii c.
Proof. destruct c as [[] [] [] [] [] [] [] []]; reflexivity. Qed.

Lemma is_digit_lower (c : ascii) : is_digit (lower_ascii c) = is_digit c.
Proof. destruct c as [[] [] [] [] [] [] [] []]; reflexivity. Qed.

Lemma lower_ascii_digit (c : ascii) : is_digit c = true -> lower_ascii c = c.
Proof. destruct c as [[] [] [] [] [] [] [] []]; try discriminate; reflexivity. Qed.

Lemma chr_matches_lower (c c' : ascii) :
  chr_matches true c (lower_ascii c') = chr_matches true c c'.
Proof. unfold chr_matches. by rewrite lower_ascii_idemp. Qed.

Lemma consumed_lower (w rest : string) :
  consumed (lower (w +:+ rest)) (lower rest) = lower (consumed (w +:+ rest) rest).
Proof. by rewrite lower_app, !consumed_app. Qed.

Lemma bind_group_lower (name : option string) (text : string) (caps : captures) :
  bind_group name (lower text) (lower_caps caps)
  = lower_caps (bind_group name text caps).
Proof. by destruct name. Qed.

Lemma lower_all_digits (ds : string) : all_digits ds = true -> lower ds = ds.
Proof.
  induction ds as [|c ds IH]; simpl; [done|].
  intros [Hc Hds]%andb_true_iff. by rewrite (lower_ascii_digit c Hc), IH.
Qed.

Lemma lower_sign_and_digits (t : string) : sign_and_digits t -> lower t = t.
Proof.
  intros (ds & Hds & [->| ->]); simpl; by rewrite (lower_all_digits ds Hds).
Qed.

Lemma lower_signed_number (t : string) : signed_number t -> lower t = t.
Proof.
  intros (ds & Hds & _ & [->| ->]); simpl; by rewrite (lower_all_digits ds Hds).
Qed.

Section case_simulation.
Context {R1 R2 : Type} (P : R1 -> R2 -> Prop).

(** The continuations [k1], on the suffixes of [s], and [k2], on the same
    suffixes in lower case, succeed together, with results related by [P]. *)
Let related (s : string) (k1 : @cont R1) (k2 : @cont R2) : Prop :=
  forall w s' caps,
    s = w +:+ s' ->
    option_Forall2 P (k1 s' caps) (k2 (lower s') (lower_caps caps)).

Let simulates (r : regex) : Prop :=
  forall s caps k1 k2,
    related s k1 k2 ->
    option_Forall2 P (rmatch true r s caps k1)
                     (rmatch true r (lower s) (lower_caps caps) k2).

Lemma related_suffix_lower (w s' : string) k1 k2 :
  related (w +:+ s') k1 k2 -> related s' k1 k2.
Proof.
  intros H w' s'' caps ->. apply (H (w +:+ w')). by rewrite str_app_assoc.
Qed.

Lemma star_loop_lower (r : regex) :
  simulates r ->
  forall fuel s caps k1 k2,
    related s k1 k2 ->
    option_Forall2 P (star_loop fuel (rmatch true r) s caps k1)
                     (star_loop fuel (rmatch true r) (lower s) (lower_caps caps) k2).
Proof.
  intros Hr. induction fuel as [|fuel IH]; intros s caps k1 k2 Hk; simpl.
  - by apply (Hk EmptyString).
  - apply option_Forall2_or_else; [|by apply (Hk EmptyString)].
    apply Hr. intros w s' c ->. rewrite !length_lower.
    destruct (_ <? _)%nat; [|constructor].
    apply IH. by eapply related_suffix_lower.
Qed.

Lemma rmatch_lower (r : regex) : simulates r.
Proof.
  induction r as [c| |r1 IH1 r2 IH2|r IH|r IH|r IH|name r IH];
    intros s caps k1 k2 Hk; cbn [rmatch].
  - destruct s as [|c' s]; cbn [lower]; [constructor|].
    rewrite chr_matches_lower. destruct (chr_matches true c c'); [|constructor].
    by apply (Hk (String c' EmptyString)).
  - destruct s as [|c' s]; cbn [lower]; [constructor|].
    rewrite is_digit_lower. destruct (is_digit c'); [|constructor].
    by apply (Hk (String c' EmptyString)).
  - apply IH1. intros w s' c ->. apply IH2. by eapply related_suffix_lower.
  - apply option_Forall2_or_else; [by apply IH | by apply (Hk EmptyString)].
  - rewrite length_lower. by apply star_loop_lower.
  - apply IH. intros w s' c ->. rewrite length_lower.
    apply star_loop_lower; [done|]. by eapply related_suffix_lower.
  - apply IH. intros w s' c ->.
    rewrite consumed_lower, bind_group_lower. by apply (Hk w).
Qed.
End case_simulation.

(** With [re.IGNORECASE] a match is found in a text exactly when one is
    found in its lower case form, and it is the same match in lower case. *)
Lemma match_here_lower (r : regex) (s : string) :
  option_Forall2 (fun x y => y = (lower_match (fst x), lower (snd x)))
    (match_here true r s) (match_here true r (lower s)).
Proof.
  unfold match_here. change (@nil (string * string)) with (lower_caps []) at 2.
  apply rmatch_lower. intros w s' caps ->. constructor.
  unfold lower_match. simpl. by rewrite consumed_lower.
Qed.

Lemma finditer_from_lower (r : regex) : forall (fuel : nat) (s : string),
  finditer_from fuel true r (lower s) = map lower_match (finditer_from fuel true r s).
Proof.
  induction fuel as [|fuel IH]; intros s; simpl; [done|].
  assert (Hskip : match lower s with
                  | String _ s' => finditer_from fuel true r s'
                  | EmptyString => []
                  end
                  = map lower_match match s with
                                    | String _ s' => finditer_from fuel true r s'
                                    | EmptyString => []
                                    end).
  { destruct s as [|c s]; simpl; [done | apply IH]. }
  destruct (match_here_lower r s) as [[m rest] y ->|]; simpl.
  - rewrite !length_lower. destruct (_ <? _)%nat; simpl; f_equal; [apply IH | done].
  - done.
Qed.

(** The groups of a dice token hold no letter. *)
Lemma dice_regexp_caps_lower (w : string) (caps : captures) :
  matches true dice_regexp w [] caps -> lower_caps caps = caps.
Proof.
  unfold dice_regexp.
  intros (wn & w' & caps1 & -> & Hn & H)%matches_Cat_inv.
  apply matches_Group_inv in Hn as (caps0 & Hn & ->).
  apply matches_sign_and_digits in Hn as [-> Hnum%lower_sign_and_digits].
  apply matches_Cat_inv in H as (wd & w'' & caps2 & -> & Hd & H).
  apply matches_Chr_inv in Hd as (d & -> & -> & _).
  apply matches_Cat_inv in H as (wt & wv & caps3 & -> & Ht & Hv).
  apply matches_Group_inv in Ht as (caps4 & Ht & ->).
  apply matches_signed_number in Ht as [-> Htype%lower_signed_number].
  apply matches_Opt_inv in Hv as [[-> ->]|Hv].
  - simpl. by rewrite Hnum, Htype.
  - apply matches_Group_inv in Hv as (caps5 & Hv & ->).
    apply matches_Cat_inv in Hv as (w1 & w2 & caps6 & -> & Hv1 & Hv2).
    apply matches_Chr_inv in Hv1 as (v & -> & -> & _).
    apply matches_Group_inv in Hv2 as (caps7 & Hv2 & ->).
    apply matches_signed_number in Hv2 as [-> Hdrop%lower_signed_number]. simpl.
    by rewrite Hnum, Htype, Hdrop.
Qed.

Lemma groupdict_dice_expressions_lower (raw : string) :
  map groupdict (dice_expressions_of (lower raw))
  = map groupdict (dice_expressions_of raw).
Proof.
  unfold dice_expressions_of, re_finditer.
  rewrite length_lower, finditer_from_lower, map_map.
  apply map_ext_in. intros m Hin%list_elem_of_In.
  apply finditer_from_elem in Hin as (s' & rest & [_ Hm]%match_here_sound).
  simpl. by eapply dice_regexp_caps_lower.
Qed.

Lemma _roll_dice_groupdict (m m' : Match) (g : RNG) :
  groupdict m = groupdict m' -> _roll_dice m g = _roll_dice m' g.
Proof. intros H. unfold _roll_dice, group. by rewrite H. Qed.

Lemma roll_all_groupdict (ms : list Match) : forall (ms' : list Match) (g : RNG),
  map groupdict ms = map groupdict ms' -> roll_all ms g = roll_all ms' g.
Proof.
  induction ms as [|m ms IH]; intros [|m' ms'] g; simpl; try done.
  intros [= Hm Hms]. rewrite (_roll_dice_groupdict m m' g Hm).
  destruct (_roll_dice m' g) as [[dp g1]|e]; simpl; [|done].
  by rewrite (IH ms' g1 Hms).
Qed.

(** X15. The letters of a text count whatever their case: two texts that differ
    in the case of their letters only hold the same dice tokens, with the
    same groups, and the same dice are rolled for them. *)
Theorem rolls_ignore_case (raw1 raw2 : string) (g : RNG) :
  lower raw1 = lower raw2 ->
  map groupdict (dice_expressions_of raw1) = map groupdict (dice_expressions_of raw2)
  /\ roll_all (dice_expressions_of raw1) g = roll_all (dice_expressions_of raw2) g.
Proof.
  intros Hlow.
  assert (map groupdict (dice_expressions_of raw1)
          = map groupdict (dice_expressions_of raw2)) as Hgroups.
  { rewrite <- (groupdict_dice_expressions_lower raw1),
            <- (groupdict_dice_expressions_lower raw2). by rewrite Hlow. }
  split; [done | by apply roll_all_groupdict].
Qed.

Lemma rolls_ignore_case_witness :
  map groupdict (dice_expressions_of "2D6V1 + D20")
  = map groupdict (dice_expressions_of "2d6v1 + d20")
  /\ roll_all (dice_expressions_of "2D6V1 + D20") sample_supply
     = roll_all (dice_expressions_of "2d6v1 + d20") sample_supply.
Proof. apply (rolls_ignore_case "2D6V1 + D20" "2d6v1 + d20"). reflexivity. Defined.

(** ** The comment *)

Lemma split_first_no_sep (s : string) :
  has_char "#" s = false -> split_first "#" s = s.
Proof.
  induction s as [|c s IH]; simpl; [done|].
  destruct (Ascii.eqb c "#"); simpl; [done|]. intros H. by rewrite IH.
Qed.

(** X20. A comment changes nothing to a roll: [roll] on a text followed by
    ["#"] and anything answers as on the text alone. With nothing before the
    ["#"], the answer is that no dice expression was found. *)
Theorem comment_never_changes_the_roll (pre post : string) (g : RNG) :
  has_char "#" pre = false ->
  (pre <> EmptyString ->
     roll (Some (pre +:+ String "#" post)) g = roll (Some pre) g)
  /\ (pre = EmptyString ->
        roll (Some (pre +:+ String "#" post)) g
        = Replied "I couldn't find any valid dice expressions.").
Proof.
  intros Hpre. split.
  - intros Hne. destruct pre as [|c pre]; [done|].
    rewrite str_app_cons, !roll_cases, <- str_app_cons.
    unfold arg_str_raw_of.
    by rewrite (split_first_app (String c pre) post Hpre),
               (split_first_no_sep (String c pre) Hpre).
  - intros ->. rewrite str_app_nil_l. reflexivity.
Qed.

Lemma comment_never_changes_the_roll_witness :
  roll (Some ("2d6+3 " +:+ String "#" " for luck")) sample_supply
  = roll (Some "2d6+3 ") sample_supply.
Proof.
  destruct (comment_never_changes_the_roll "2d6+3 " " for luck" sample_supply eq_refl)
    as [H _].
  apply H. discriminate.
Defined.
